(** * mc-backup: the snapshot-and-archive pipeline

    A shallow embedding of the recurring backup program
    ([generateZipFilename], [getFolderSize], [copyFolder], [delFolder],
    [zipFolder], [runBackupOperation] and the [setInterval] scheduler) and
    the properties of its specification, proved or refuted on that
    embedding.

    Conventions.
    - A JavaScript number is a double.  The value of a double is a
      rational: byte counts are naturals ([N]), fractions are in [Q], and
      every sum, quotient and difference that the program computes on them
      is rounded to the nearest double ([round53], [double]).  Calendar
      fields and clock readings are integers ([Z]).
    - The file system is a tree of [node]s; a path string is resolved
      component by component ([segments]).
    - A function that can throw returns the state it leaves behind together
      with a [result]: what was written before the exception stays
      written. *)

From Stdlib Require Import List String Ascii NArith ZArith QArith Lia Lqa Bool Arith.
From Stdlib Require Import Floats.
Import ListNotations.

Local Open Scope string_scope.
Local Open Scope Z_scope.

(** * Part I: the program *)

(** ** Errors and results *)

(** The [code] of the system errors that the [fs] calls and the archiver
    raise. *)
Inductive errno : Type :=
| ENOENT | ENOTDIR | EISDIR | EACCES | EEXIST | EINVAL | ENOSPC.

Inductive result (A : Type) : Type :=
| Ok (a : A)
| Err (e : errno).
Arguments Ok {A} a.
Arguments Err {A} e.

Definition is_ok {A} (r : result A) : bool :=
  match r with Ok _ => true | Err _ => false end.

(** ** Strings: [String(n)], [padStart], [path.basename], [path.join] *)

Definition digit_char (d : N) : ascii := ascii_of_N (48 + d).

(** Decimal digits of [n], most significant first, in front of [acc]. *)
Fixpoint dec_digits (fuel : nat) (n : N) (acc : string) : string :=
  let acc' := String (digit_char (n mod 10)) acc in
  match fuel with
  | O => acc'
  | S fuel' => if (n / 10 =? 0)%N then acc' else dec_digits fuel' (n / 10) acc'
  end.

(** [String(n)] for an integer-valued number. *)
Definition String_of_N (n : N) : string := dec_digits (N.size_nat n) n EmptyString.

Definition String_of_Z (z : Z) : string :=
  if z <? 0 then "-" ++ String_of_N (Z.to_N (- z)) else String_of_N (Z.to_N z).

(** [n] characters taken from [pad] repeated; [rest] is what is left of the
    current repetition. *)
Fixpoint fill (n : nat) (pad rest : string) : string :=
  match n with
  | O => EmptyString
  | S n' =>
      match rest with
      | String c r => String c (fill n' pad r)
      | EmptyString =>
          match pad with
          | String c r => String c (fill n' pad r)
          | EmptyString => EmptyString
          end
      end
  end.

(** [s.padStart(targetLength, padString)]. *)
Definition padStart (s : string) (targetLength : nat) (padString : string) : string :=
  if (targetLength <=? String.length s)%nat then s
  else fill (targetLength - String.length s) padString padString ++ s.

(** The pieces of [s] between occurrences of [sep]. *)
Fixpoint split_on (sep : ascii) (s : string) : list string :=
  match s with
  | EmptyString => [EmptyString]
  | String c r =>
      if Ascii.eqb c sep then EmptyString :: split_on sep r
      else match split_on sep r with
           | seg :: segs => String c seg :: segs
           | [] => [String c EmptyString]
           end
  end.

(** The components of a POSIX path: empty pieces (leading, trailing and
    doubled separators) carry no name. *)
Definition segments (p : string) : list string :=
  filter (fun seg => negb (String.eqb seg EmptyString)) (split_on "/" p).

(** [path.basename(p)]: the last component, trailing separators ignored. *)
Definition basename (p : string) : string := last (segments p) EmptyString.

(** [path.join(a, b)], up to normalisation: the fs calls below resolve a
    path through its [segments]. *)
Definition path_join (a b : string) : string :=
  if String.eqb a EmptyString then b else a ++ "/" ++ b.

(** ** Numbers *)

(** The integer nearest to [num / den] ([den] positive), the even one when
    two are as near: the rounding of the last place of a double. *)
Definition round_half_even (num den : Z) : Z :=
  let q := num / den in
  match 2 * (num mod den) ?= den with
  | Lt => q
  | Gt => q + 1
  | Eq => if Z.even q then q else q + 1
  end.

(** The double nearest to a natural number: itself below 2^53, and above
    that the nearest multiple of the unit in the last place of its 53-bit
    significand. *)
Definition round53 (n : N) : N :=
  if (n <? 2 ^ 53)%N then n
  else
    let ulp := (2 ^ (N.log2 n - 52))%N in
    (Z.to_N (round_half_even (Z.of_N n) (Z.of_N ulp)) * ulp)%N.

(** [a + b] on two byte counts: each operand is a double, and so is the
    sum. *)
Definition js_add (a b : N) : N := round53 (round53 a + round53 b).

(** The double nearest to the positive rational [n / d]: the operand is
    scaled by a power of two into [2^52, 2^53) (numerator times [2 ^ up],
    denominator times [2 ^ down]), rounded to an integer significand and
    scaled back.  Doubles are taken in their normal range. *)
Definition round_pos (n d : positive) : Q :=
  let k := 53 - (Z.log2 (Zpos n) - Z.log2 (Zpos d)) in
  let up := Z.max 0 k in
  let down0 := Z.max 0 (- k) in
  let down := if 2 ^ 53 * (Zpos d * 2 ^ down0) <=? Zpos n * 2 ^ up
              then down0 + 1 else down0 in
  let m := round_half_even (Zpos n * 2 ^ up) (Zpos d * 2 ^ down) in
  Qred (Qmake (m * 2 ^ down) (Z.to_pos (2 ^ up))).

(** The double nearest to a rational, in lowest terms. *)
Definition double (x : Q) : Q :=
  match Qnum x with
  | Z0 => 0
  | Zpos n => round_pos n (Qden x)
  | Zneg n => - round_pos n (Qden x)
  end.

(** A byte count as a number: the double that holds it. *)
Definition Number (n : N) : Q := inject_Z (Z.of_N (round53 n)).

(** [a / b] with [b] not zero, [a - b], and the literal [0.01]. *)
Definition js_div (a b : Q) : Q := double (a / b).

Definition js_sub (a b : Q) : Q := double (a - b).

Definition hundredth : Q := double (1 # 100).

(** ** generateZipFilename *)

(** The local-time fields of a [Date]. *)
Record Date : Type := mkDate {
  getFullYear : Z;
  getMonth : Z;        (* 0 .. 11 *)
  getDate : Z;
  getHours : Z;
  getMinutes : Z;
  getSeconds : Z;
  getMilliseconds : Z
}.

(** The [timestamp] template string of [generateZipFilename]. *)
Definition timestamp (now : Date) : string :=
  let year := String_of_Z (getFullYear now) in
  let month := padStart (String_of_Z (getMonth now + 1)) 2 "0" in
  let day := padStart (String_of_Z (getDate now)) 2 "0" in
  let hours := padStart (String_of_Z (getHours now)) 2 "0" in
  let minutes := padStart (String_of_Z (getMinutes now)) 2 "0" in
  let seconds := padStart (String_of_Z (getSeconds now)) 2 "0" in
  year ++ "-" ++ month ++ "-" ++ day ++ "_" ++ hours ++ "-" ++ minutes ++ "-" ++ seconds.

(** [generateZipFilename(folderPath)], with the value of [new Date()] as an
    argument. *)
Definition generateZipFilename (now : Date) (folderPath : string) : string :=
  let folderName := basename folderPath in
  timestamp now ++ "_" ++ folderName ++ ".zip".

(** ** The file system *)

(** What [fs.stat] finds at a path.  [stat] follows symbolic links, so a
    link to an existing target is the target; [Dangling] is a link whose
    target is missing ([readdir] of the parent lists it, [stat] raises
    ENOENT, [cpSync] copies the link).  [Locked] is a directory that is not
    empty and that the process may neither read nor enter ([stat] succeeds
    and says directory, [readdir] and every access below it raise EACCES).
    The [size] of a file is the number that [stat] reports.  A directory
    keeps its entries in [readdir] order. *)
#[warnings="-register-all"]
Inductive node : Type :=
| File (size : N)
| Dir (entries : list (string * node))
| Locked
| Dangling.

(** [fs.Stats]: the two members the program reads. *)
Record Stats : Type := { isDirectory : bool; size : N }.

(** [stat(fullPath)] on the entry found at [fullPath]. *)
Definition stat (n : node) : result Stats :=
  match n with
  | File sz => Ok {| isDirectory := false; size := sz |}
  | Dir _ => Ok {| isDirectory := true; size := 4096 |}
  | Locked => Ok {| isDirectory := true; size := 4096 |}
  | Dangling => Err ENOENT
  end.

(** [readdir(dir)] on the entry found at [dir]: the names, each with the
    entry that [path.join(dir, file)] resolves to. *)
Definition readdir (n : node) : result (list (string * node)) :=
  match n with
  | Dir entries => Ok entries
  | File _ => Err ENOTDIR
  | Locked => Err EACCES
  | Dangling => Err ENOENT
  end.

(** Directory entries by name. *)
Fixpoint alookup (name : string) (es : list (string * node)) : option node :=
  match es with
  | [] => None
  | (k, v) :: r => if String.eqb k name then Some v else alookup name r
  end.

Definition adelete (name : string) (es : list (string * node)) : list (string * node) :=
  filter (fun e => negb (String.eqb (fst e) name)) es.

Fixpoint ainsert (name : string) (v : node) (es : list (string * node))
  : list (string * node) :=
  match es with
  | [] => [(name, v)]
  | (k, w) :: r =>
      if String.eqb k name then (k, v) :: r else (k, w) :: ainsert name v r
  end.

Definition aset (name : string) (r : option node) (es : list (string * node))
  : list (string * node) :=
  match r with
  | Some v => ainsert name v es
  | None => adelete name es
  end.

(** Path resolution from the entry [n], one component at a time. *)
Fixpoint resolve (p : list string) (n : node) : result node :=
  match p with
  | [] => Ok n
  | c :: p' =>
      match n with
      | Dir es =>
          match alookup c es with
          | Some child => resolve p' child
          | None => Err ENOENT
          end
      | File _ => Err ENOTDIR
      | Locked => Err EACCES
      | Dangling => Err ENOENT
      end
  end.

Definition lookup (p : list string) (n : node) : option node :=
  match resolve p n with Ok x => Some x | Err _ => None end.

(** [fs.existsSync(path)]: the path is followed to its end, so a link
    whose target is missing does not exist. *)
Definition existsSync (path : string) (root : node) : bool :=
  match resolve (segments path) root with
  | Ok Dangling => false
  | Ok _ => true
  | Err _ => false
  end.

(** [fs.statSync(path)]. *)
Definition statSync (path : string) (root : node) : result Stats :=
  match resolve (segments path) root with
  | Ok n => stat n
  | Err e => Err e
  end.

(** The write at the end of a path: [f] receives what is at [p] (or [None])
    and answers what is there afterwards, and whether it raises.  With [mk]
    missing intermediate directories are created on the way; without it a
    missing one is ENOENT. *)
Fixpoint upd (mk : bool) (p : list string)
    (f : option node -> option node * result unit)
    (cur : option node) : option node * result unit :=
  match p with
  | [] => f cur
  | c :: p' =>
      match cur with
      | Some (Dir es) =>
          let (r, st) := upd mk p' f (alookup c es) in
          (Some (Dir (aset c r es)), st)
      | None =>
          if mk then
            let (r, st) := upd mk p' f None in
            (Some (Dir (aset c r [])), st)
          else (None, Err ENOENT)
      | Some (File _) => (cur, Err ENOTDIR)
      | Some Locked => (cur, Err EACCES)
      | Some Dangling => (cur, Err ENOENT)
      end
  end.

(** A write in the tree under [root]; the root itself is never removed. *)
Definition write_at (mk : bool) (p : list string)
    (f : option node -> option node * result unit)
    (root : node) : node * result unit :=
  match upd mk p f (Some root) with
  | (Some root', st) => (root', st)
  | (None, _) => (root, Err EINVAL)
  end.

(** [fs.mkdirSync(path, { recursive: true })]: nothing to do when the
    directory is there. *)
Definition mkdir_at (cur : option node) : option node * result unit :=
  match cur with
  | None => (Some (Dir []), Ok tt)
  | Some (Dir _) | Some Locked => (cur, Ok tt)
  | Some (File _) | Some Dangling => (cur, Err EEXIST)
  end.

Definition mkdirSync (path : string) (root : node) : node * result unit :=
  write_at true (segments path) mkdir_at root.

(** What is left of an entry once it is removed, or once its removal has
    failed. *)
Definition rest_of (name : string) (r : option node) : list (string * node) :=
  match r with
  | Some child => [(name, child)]
  | None => []
  end.

(** The entries of a directory removed one after the other, in [readdir]
    order: the first entry that cannot be removed stops the removal, and
    what was not removed yet stays. *)
Definition rm_entries (rec : node -> option node * result unit)
  : list (string * node) -> list (string * node) * result unit :=
  fix loop (es : list (string * node)) :=
    match es with
    | [] => ([], Ok tt)
    | (name, child) :: rest =>
        let (r, st) := rec child in
        match st with
        | Ok _ => let (rest', st') := loop rest in ((rest_of name r ++ rest')%list, st')
        | Err e => ((rest_of name r ++ rest)%list, Err e)
        end
    end.

(** The recursive removal of an entry: a file or a link is unlinked; a
    directory is emptied, then removed; a directory that cannot be read
    cannot be emptied. *)
Fixpoint rm_node (n : node) : option node * result unit :=
  match n with
  | File _ | Dangling => (None, Ok tt)
  | Locked => (Some Locked, Err EACCES)
  | Dir es =>
      let (es', st) := rm_entries rm_node es in
      match st with
      | Ok _ => (None, Ok tt)
      | Err e => (Some (Dir es'), Err e)
      end
  end.

(** [fs.rmSync(path, { recursive, force })]: [force] silences the missing
    path, [recursive] is needed for a directory. *)
Definition rm_at (recursive force : bool) (cur : option node)
  : option node * result unit :=
  match cur with
  | None => (None, if force then Ok tt else Err ENOENT)
  | Some (Dir _ as n) | Some (Locked as n) =>
      if recursive then rm_node n else (cur, Err EISDIR)
  | Some (File _) | Some Dangling => (None, Ok tt)
  end.

Definition rmSync (path : string) (recursive force : bool) (root : node)
  : node * result unit :=
  match write_at false (segments path) (rm_at recursive force) root with
  | (root', Err ENOENT) => (root', if force then Ok tt else Err ENOENT)
  | r => r
  end.

(** One level of [cpSync]'s [copyDir]: the entries of the source directory,
    in order, each copied over what the destination [ds] holds under the
    same name; the first failure stops the loop and what is copied so far
    stays. *)
Definition copyDir (rec : node -> option node -> option node * result unit)
  : list (string * node) -> list (string * node)
    -> list (string * node) * result unit :=
  fix loop (es ds : list (string * node)) :=
    match es with
    | [] => (ds, Ok tt)
    | (name, child) :: rest =>
        let (r, st) := rec child (alookup name ds) in
        let ds' := aset name r ds in
        match st with
        | Ok _ => loop rest ds'
        | Err e => (ds', Err e)
        end
    end.

(** [cpSync] of the entry [s] onto what the destination holds ([d]), with
    [recursive: true] and the default [force]: a file replaces a file, a
    directory is merged into a directory, a link is copied as a link where
    nothing is in its way, and a directory never replaces a file nor a file
    a directory. *)
Fixpoint cp_node (s : node) (d : option node) : option node * result unit :=
  match s with
  | File sz =>
      match d with
      | Some (Dir _) | Some Locked => (d, Err EISDIR)
      | None | Some (File _) | Some Dangling => (Some (File sz), Ok tt)
      end
  | Dangling =>
      match d with
      | None => (Some Dangling, Ok tt)
      | Some (File _) | Some Dangling => (d, Err EEXIST)
      | Some (Dir _) | Some Locked => (d, Err EISDIR)
      end
  | Locked =>
      match d with
      | None => (Some (Dir []), Err EACCES)
      | Some (Dir _) | Some Locked => (d, Err EACCES)
      | Some (File _) | Some Dangling => (d, Err ENOTDIR)
      end
  | Dir es =>
      match d with
      | Some (File _) | Some Dangling => (d, Err ENOTDIR)
      | Some Locked => (d, Err EACCES)
      | None =>
          let (ds', st) := copyDir cp_node es [] in (Some (Dir ds'), st)
      | Some (Dir ds) =>
          let (ds', st) := copyDir cp_node es ds in (Some (Dir ds'), st)
      end
  end.

Fixpoint is_prefix (p q : list string) : bool :=
  match p, q with
  | [], _ => true
  | _ :: _, [] => false
  | a :: p', b :: q' => String.eqb a b && is_prefix p' q'
  end.

(** [fs.cpSync(src, dest, { recursive: true, preserveTimestamps: true })]
    (timestamps are not part of the model).  The source must exist and the
    destination must not lie inside it; missing parents of the destination
    are created. *)
Definition cpSync (src dest : string) (root : node) : node * result unit :=
  match resolve (segments src) root with
  | Err e => (root, Err e)
  | Ok s =>
      if is_prefix (segments src) (segments dest) then (root, Err EINVAL)
      else write_at true (segments dest) (cp_node s) root
  end.

(** [fs.createWriteStream(path)] opening its file (flags ['w']): created
    empty, or truncated. *)
Definition open_at (cur : option node) : option node * result unit :=
  match cur with
  | None | Some (File _) => (Some (File 0), Ok tt)
  | Some Dangling => (Some (File 0), Ok tt)
  | Some (Dir _) | Some Locked => (cur, Err EISDIR)
  end.

Definition createWriteStream (path : string) (root : node) : node * result unit :=
  write_at false (segments path) open_at root.

(** The stream flushing [n] bytes into its open file; bytes written to a
    file that was unlinked meanwhile are lost, without an exception. *)
Definition flush_at (n : N) (cur : option node) : option node * result unit :=
  match cur with
  | Some (File _) => (Some (File n), Ok tt)
  | _ => (cur, Ok tt)
  end.

(** ** getFolderSize *)

(** The loop of [getSize] over the names that [readdir] returned:
<<
      const fileStat = await stat(path.join(dir, file));
      if (fileStat.isDirectory()) await getSize(fullPath);
      else totalSize += fileStat.size;
>>
    [rec] is the recursive call; [totalSize], the variable that the closure
    captures, is threaded through, and [+=] is the addition of doubles.  A
    rejected [stat] or recursive call rejects the loop. *)
Definition for_files (rec : node -> N -> result N)
  : list (string * node) -> N -> result N :=
  fix loop (files : list (string * node)) (totalSize : N) :=
    match files with
    | [] => Ok totalSize
    | (_, entry) :: rest =>
        match stat entry with
        | Err e => Err e
        | Ok fileStat =>
            if isDirectory fileStat then
              match rec entry totalSize with
              | Ok t => loop rest t
              | Err e => Err e
              end
            else loop rest (js_add totalSize (size fileStat))
        end
    end.

(** The inner [getSize(dir)]: [readdir(dir)], then the loop. *)
Fixpoint getSize (dir : node) (totalSize : N) : result N :=
  match dir with
  | Dir files => for_files getSize files totalSize
  | File _ => Err ENOTDIR
  | Locked => Err EACCES
  | Dangling => Err ENOENT
  end.

(** [getFolderSize(folderPath)]: [totalSize] starts at 0. *)
Definition getFolderSize (folderPath : string) (root : node) : result N :=
  match resolve (segments folderPath) root with
  | Ok dir => getSize dir 0
  | Err e => Err e
  end.

(** ** The state of the process and its monad *)

(** What the program prints and draws. *)
Inductive out : Type :=
| LogZippingFolder (folderName : string)
| LogOutputZip (zipPath : string)
| LogCopying
| LogCopied
| LogDeleting
| LogDeleted
| LogZipping
| LogZipped (totalBytes zipSize : N)
| LogWaiting
| LogException (err : errno)
| BarUpdate (ratio : Q).

Record world : Type := mkWorld {
  fs : node;                (* the root directory *)
  console : list out        (* oldest first *)
}.

(** A computation that reads and writes the world and may throw: the world
    it returns is the one left behind, also when it throws. *)
Definition M (A : Type) : Type := world -> world * result A.

Definition ret {A} (a : A) : M A := fun w => (w, Ok a).

Definition bind {A B} (c : M A) (k : A -> M B) : M B :=
  fun w =>
    match c w with
    | (w', Ok a) => k a w'
    | (w', Err e) => (w', Err e)
    end.

Notation "x <- c ;; k" := (bind c (fun x => k))
  (at level 61, c at next level, right associativity).
Notation "c ;; k" := (bind c (fun _ => k))
  (at level 61, right associativity).

Definition log (o : out) : M unit :=
  fun w => ({| fs := fs w; console := console w ++ [o] |}, Ok tt).

Definition lift_fs (op : node -> node * result unit) : M unit :=
  fun w => let (root', st) := op (fs w) in
           ({| fs := root'; console := console w |}, st).

Definition read_fs {A} (op : node -> result A) : M A :=
  fun w => (w, op (fs w)).

(** ** copyFolder and delFolder *)

Definition copyFolder (folderPath tmpFolderPath : string) : M unit :=
  log LogCopying ;;
  lift_fs (mkdirSync folderPath) ;;
  lift_fs (cpSync folderPath tmpFolderPath) ;;
  log LogCopied.

Definition delFolder (tmpFolderPath : string) : M unit :=
  log LogDeleting ;;
  lift_fs (rmSync tmpFolderPath true true) ;;
  log LogDeleted.

(** ** zipFolder *)

(** The [ProgressBar] object: its [total] and the ratio last passed to
    [update]. *)
Record ProgressBar : Type := { total : N; ratio : Q }.

(** The variables captured by the three handlers of [zipFolder].
    [divisions] is a ghost: the operands of every division
    [data.fs.processedBytes / totalBytes] the progress handler has
    evaluated, latest first. *)
Record zip : Type := mkZip {
  zOutput : string;                 (* outputZipPath *)
  zTmp : string;                    (* tmpFolder *)
  totalBytes : N;
  bar : option ProgressBar;         (* [None] is [null] *)
  lastPrintedProgress : Q;
  divisions : list (N * N)
}.

(** What the archive and its output stream emit. *)
Inductive event : Type :=
| EvProgress (processedBytes : N)   (* archive 'progress', data.fs.processedBytes *)
| EvError (err : errno)             (* archive 'error' *)
| EvClose (zipSize : N).            (* output 'close', after [zipSize] bytes were written *)

(** The body of [zipFolder] up to [archive.finalize()]: the output file is
    opened, the total is computed, the bar is created when there is
    something to count.  A failure to open the output, or a rejected
    [getFolderSize], ends the call before any handler is registered. *)
Definition zipFolder (folderPath outputZipPath tmpFolder : string) : M zip :=
  lift_fs (createWriteStream outputZipPath) ;;
  log LogZipping ;;
  totalBytes <- read_fs (getFolderSize folderPath) ;;
  let bar := if (0 <? totalBytes)%N
             then Some {| total := totalBytes; ratio := 0 |}
             else None in
  ret {| zOutput := outputZipPath; zTmp := tmpFolder; totalBytes := totalBytes;
         bar := bar; lastPrintedProgress := 0; divisions := [] |}.

(** [archive.on("progress", ...)]:
<<
      const progress = data.fs.processedBytes / totalBytes;
      if (progress - lastPrintedProgress >= 0.01) { ... }
>>
    in the arithmetic of doubles.  There is a bar only when [totalBytes] is
    positive. *)
Definition on_progress (processedBytes : N) (z : zip) : M zip :=
  match bar z with
  | None => ret z
  | Some b =>
      let progress := js_div (Number processedBytes) (Number (totalBytes z)) in
      let divs := (processedBytes, totalBytes z) :: divisions z in
      if Qle_bool hundredth (js_sub progress (lastPrintedProgress z)) then
        log (BarUpdate progress) ;;
        ret {| zOutput := zOutput z; zTmp := zTmp z; totalBytes := totalBytes z;
               bar := Some {| total := total b; ratio := progress |};
               lastPrintedProgress := progress; divisions := divs |}
      else
        ret {| zOutput := zOutput z; zTmp := zTmp z; totalBytes := totalBytes z;
               bar := bar z; lastPrintedProgress := lastPrintedProgress z;
               divisions := divs |}
  end.

(** [archive.on("error", ...)]: [handleException] prints the error. *)
Definition on_error (err : errno) (z : zip) : M zip :=
  log (LogException err) ;; ret z.

(** [output.on("close", ...)]. *)
Definition on_close (z : zip) : M zip :=
  z' <- match bar z with
        | Some b =>
            log (BarUpdate 1) ;;
            ret {| zOutput := zOutput z; zTmp := zTmp z; totalBytes := totalBytes z;
                   bar := Some {| total := total b; ratio := 1 |};
                   lastPrintedProgress := lastPrintedProgress z;
                   divisions := divisions z |}
        | None => ret z
        end ;;
  st <- read_fs (statSync (zOutput z)) ;;
  let zipSize := size st in
  log (LogZipped (totalBytes z) zipSize) ;;
  delFolder (zTmp z) ;;
  log LogWaiting ;;
  ret z'.

(** The bytes of the archive reaching the output file. *)
Definition flush (path : string) (n : N) : M unit :=
  fun w =>
    ({| fs := fst (write_at false (segments path) (flush_at n) (fs w));
        console := console w |}, Ok tt).

Definition handle (ev : event) (z : zip) : M zip :=
  match ev with
  | EvProgress processedBytes => on_progress processedBytes z
  | EvError err => on_error err z
  | EvClose zipSize => flush (zOutput z) zipSize ;; on_close z
  end.

(** The handlers run on the events of one archive, in order. *)
Fixpoint deliver (evs : list event) (z : zip) : M zip :=
  match evs with
  | [] => ret z
  | ev :: rest => z' <- handle ev z ;; deliver rest z'
  end.

(** ** runBackupOperation *)

(** [backup.yaml]. *)
Record Config : Type := { folderName : string; zipFolderName : string }.

(** [runBackupOperation()]: [cfg] is the configuration it loads, [tmpdir]
    is [os.tmpdir()], [now] the [new Date()] of [generateZipFilename]. *)
Definition runBackupOperation (cfg : Config) (tmpdir : string) (now : Date) : M zip :=
  let zipPath := path_join (zipFolderName cfg) (generateZipFilename now (folderName cfg)) in
  let tmpFolder := path_join tmpdir "temp_backup_world" in
  log (LogZippingFolder (folderName cfg)) ;;
  log (LogOutputZip zipPath) ;;
  copyFolder (folderName cfg) tmpFolder ;;
  zipFolder tmpFolder zipPath tmpFolder.

(** One backup cycle: [runBackupOperation], then the events of its
    archive. *)
Definition cycle (cfg : Config) (tmpdir : string) (now : Date) (evs : list event)
  : M zip :=
  z <- runBackupOperation cfg tmpdir now ;;
  deliver evs z.

(** ** The scheduler *)

(** [runBackupOperation(); setInterval(runBackupOperation, 60 * 60 * 1000);]
    on a clock in milliseconds.  A cycle is in flight from the call of
    [runBackupOperation] until the last event of its archive; [dur k] is how
    long that takes for cycle number [k]. *)
Definition INTERVAL : Z := 60 * 60 * 1000.

Record loop : Type := mkLoop {
  clock : Z;
  in_flight : list (nat * Z);   (* cycle number, time of its last event *)
  launched : nat
}.

(** The call of [runBackupOperation]: nothing is consulted, the cycle
    starts. *)
Definition start_cycle (dur : nat -> Z) (l : loop) : loop :=
  {| clock := clock l;
     in_flight := in_flight l ++ [(launched l, clock l + dur (launched l))];
     launched := S (launched l) |}.

(** The event loop has handled every event that was due by [clock l]. *)
Definition settle (l : loop) : loop :=
  {| clock := clock l;
     in_flight := filter (fun c => clock l <? snd c) (in_flight l);
     launched := launched l |}.

(** The timer fires [INTERVAL] after its previous firing. *)
Definition timer_fire (dur : nat -> Z) (l : loop) : loop :=
  start_cycle dur
    (settle {| clock := clock l + INTERVAL;
               in_flight := in_flight l;
               launched := launched l |}).

(** The process after the timer has fired [fires] times. *)
Fixpoint scheduler (dur : nat -> Z) (fires : nat) : loop :=
  match fires with
  | O => start_cycle dur {| clock := 0; in_flight := []; launched := 0 |}
  | S k => timer_fire dur (scheduler dur k)
  end.

(** ** The configuration file *)

Definition double_quote : string := String (ascii_of_N 34) EmptyString.

(** The placeholder configuration that the program writes. *)
Definition yamlContents : string :=
  "# BACKUP PROGRAM CONFIGUATION FILE
# Please fill out this file before running the backup program. Ensure all paths are in absolute form, and replace backslashes with double backslashes.

# FOLDER TO ZIP
# This is the folder that will be zipped. It should be an absolute path.
folderName: " ++ double_quote ++ double_quote ++ "

# ZIP FOLDER
# This is the folder where the zipped file will be saved. It should be an absolute path.
# Do not include the filename, it is created automatically!
zipFolder: " ++ double_quote ++ double_quote ++ "
".

(** [fs.writeFileSync(path, data)]: the file is created or replaced; its
    folder must be there. *)
Definition write_file_at (n : N) (cur : option node) : option node * result unit :=
  match cur with
  | Some (Dir _) | Some Locked => (cur, Err EISDIR)
  | None | Some (File _) | Some Dangling => (Some (File n), Ok tt)
  end.

Definition writeFileSync (path data : string) (root : node) : node * result unit :=
  write_at false (segments path) (write_file_at (N.of_nat (String.length data))) root.

(** [backup.yaml], a path relative to the working directory [cwd]. *)
Definition config_file (cwd : string) : string := path_join cwd "backup.yaml".

(** How the start of the program ends: [process.exit(code)], or on to
    [runBackupOperation]. *)
Inductive startup : Type :=
| Exit (code : Z)
| Proceed.

(** The block that runs before the first cycle:
<<
    if (!fs.existsSync("backup.yaml")) {
      console.log(...); fs.writeFileSync("backup.yaml", yamlContents);
      process.exit(1);
    }
>>
    The boolean tells whether the notice was printed. *)
Definition bootstrap (cwd : string) (root : node) : node * bool * result startup :=
  if existsSync (config_file cwd) root then (root, false, Ok Proceed)
  else
    match writeFileSync (config_file cwd) yamlContents root with
    | (root', Ok _) => (root', true, Ok (Exit 1))
    | (root', Err e) => (root', true, Err e)
    end.

(** * Part II: the vocabulary of the specification *)

(** ** Directory trees *)

(** The byte lengths of the files reachable under an entry, in the order of
    a depth-first walk. *)
Fixpoint regular_files (n : node) : list N :=
  match n with
  | File sz => [sz]
  | Dir es => flat_map (fun e => regular_files (snd e)) es
  | Locked | Dangling => []
  end.

Definition sum_bytes (l : list N) : N := fold_right N.add 0%N l.

Definition tree_bytes (n : node) : N := sum_bytes (regular_files n).

(** The total that a scan walking these files in this order arrives at,
    from the running total [totalSize]: one addition of doubles per
    file. *)
Definition running_total (sizes : list N) (totalSize : N) : N :=
  fold_left js_add sizes totalSize.

(** Every entry can be [stat]ed and every directory read. *)
Fixpoint readable (n : node) : bool :=
  match n with
  | File _ => true
  | Dir es => forallb (fun e => readable (snd e)) es
  | Locked | Dangling => false
  end.

(** A directory tree: a directory, readable throughout. *)
Definition directory_tree (n : node) : bool :=
  match n with
  | Dir _ => readable n
  | _ => false
  end.

(** No directory below the entry, nor the entry itself, is closed to the
    process: the entry can be removed with all it holds. *)
Fixpoint removable (n : node) : bool :=
  match n with
  | File _ | Dangling => true
  | Dir es => forallb (fun e => removable (snd e)) es
  | Locked => false
  end.

(** An induction principle that reaches below the entries of a
    directory. *)
Section NodeInduction.
Variable P : node -> Prop.
Hypothesis HFile : forall sz, P (File sz).
Hypothesis HDir : forall es, Forall (fun e => P (snd e)) es -> P (Dir es).
Hypothesis HLocked : P Locked.
Hypothesis HDangling : P Dangling.

Fixpoint node_induction (n : node) : P n :=
  match n with
  | File sz => HFile sz
  | Dir es =>
      HDir es
        ((fix all (l : list (string * node)) : Forall (fun e => P (snd e)) l :=
            match l with
            | [] => Forall_nil _
            | e :: l' => Forall_cons e (node_induction (snd e)) (all l')
            end) es)
  | Locked => HLocked
  | Dangling => HDangling
  end.
End NodeInduction.

(** ** Sample file systems *)

(** A world folder of 52 bytes with an empty sub-directory, a temporary
    area and a backup folder. *)
Definition sample_world : node :=
  Dir [("level.dat", File 10);
       ("region", Dir [("r.0.0.mca", File 30); ("r.0.1.mca", File 12)]);
       ("playerdata", Dir [])].

Definition root_with (world : node) : node :=
  Dir [("srv", Dir [("world", world)]); ("tmp", Dir []); ("backups", Dir [])].

Definition sample_root : node := root_with sample_world.

(** The same folder with a link whose target is gone. *)
Definition linked_world : node :=
  Dir [("level.dat", File 10); ("session.lock", Dangling); ("icon.png", File 4)].

(** The same folder with a sub-directory that may not be read. *)
Definition locked_world : node :=
  Dir [("level.dat", File 10); ("region", Locked); ("icon.png", File 4)].

(** A folder of 2^53 + 1 + 2^32 bytes. *)
Definition huge_world : node :=
  Dir [("region.mca", File (2 ^ 53)); ("level.dat", File 1);
       ("map.dat", File (2 ^ 32))].


Definition sample_config : Config :=
  {| folderName := "/srv/world"; zipFolderName := "/backups" |}.

(** 7 March 2025, 09:05:03.120 local time. *)
Definition sample_now : Date := mkDate 2025 2 7 9 5 3 120.

(** The temporary copy of an empty world, ready to be archived. *)
Definition empty_snapshot_root : node :=
  Dir [("tmp", Dir [("temp_backup_world", Dir [("playerdata", Dir [])])]);
       ("backups", Dir [])].

(** The handlers' variables at the start of the archive of 52 bytes. *)
Definition sample_zip : zip :=
  {| zOutput := "/backups/2025-03-07_09-05-03_world.zip";
     zTmp := "/tmp/temp_backup_world";
     totalBytes := 52;
     bar := Some {| total := 52; ratio := 0 |};
     lastPrintedProgress := 0;
     divisions := [] |}.

(** A second server whose world folder has the same name. *)
Definition two_servers_root : node :=
  Dir [("srv", Dir [("world", sample_world)]);
       ("home", Dir [("world", Dir [("level.dat", File 7)])]);
       ("tmp", Dir []); ("backups", Dir [])].

(** ** Paths *)

Definition olookup (p : list string) (cur : option node) : option node :=
  match cur with
  | Some n => lookup p n
  | None => None
  end.

Definition oresolve (p : list string) (cur : option node) : result node :=
  match cur with
  | Some n => resolve p n
  | None => Err ENOENT
  end.

(** The names in the directory at [p], in [readdir] order. *)
Definition readdir_names (p : list string) (root : node) : list string :=
  match lookup p root with
  | Some (Dir es) => map fst es
  | _ => []
  end.

(** A write at [p] gets to its end: every ancestor that exists is a
    directory and, unless [mk] creates them, every ancestor exists. *)
Fixpoint reaches (mk : bool) (p : list string) (cur : option node) : bool :=
  match p with
  | [] => true
  | c :: p' =>
      match cur with
      | Some (Dir es) => reaches mk p' (alookup c es)
      | None => mk
      | Some _ => false
      end
  end.

(** ** File names *)

Definition is_digit (c : ascii) : bool :=
  (48 <=? N_of_ascii c)%N && (N_of_ascii c <=? 57)%N.

(** The number a string of decimal digits writes, after the digits [acc]. *)
Fixpoint digits_value (s : string) (acc : Z) : option Z :=
  match s with
  | EmptyString => Some acc
  | String c r =>
      if is_digit c
      then digits_value r (10 * acc + Z.of_N (N_of_ascii c - 48))
      else None
  end.

(** [s] is [v] written with exactly [k] decimal digits. *)
Definition decimal (k : nat) (s : string) (v : Z) : Prop :=
  String.length s = k /\ digits_value s 0 = Some v.

Definition decimalb (k : nat) (s : string) (v : Z) : bool :=
  Nat.eqb (String.length s) k &&
  match digits_value s 0 with Some v' => Z.eqb v' v | None => false end.

(** The fields of a wall-clock reading. *)
Definition wall_clock (now : Date) : Prop :=
  1000 <= getFullYear now <= 9999 /\
  0 <= getMonth now <= 11 /\
  1 <= getDate now <= 31 /\
  0 <= getHours now <= 23 /\
  0 <= getMinutes now <= 59 /\
  0 <= getSeconds now <= 59.

(** Two readings within the same second. *)
Definition same_second (a b : Date) : Prop :=
  getFullYear a = getFullYear b /\ getMonth a = getMonth b /\
  getDate a = getDate b /\ getHours a = getHours b /\
  getMinutes a = getMinutes b /\ getSeconds a = getSeconds b.

(** ** Progress *)

(** The fraction the handler computes on a progress event. *)
Definition fraction (processedBytes : N) (z : zip) : Q :=
  js_div (Number processedBytes) (Number (totalBytes z)).

(** The least exact advance of the fraction for which the difference
    computed in doubles can reach [0.01]: a hundredth, up to the rounding
    of the difference and of the literal. *)
Definition least_advance : Q := (1 # 100) - (1 # 1000000000000000000).

(** The ratios passed to [bar.update], oldest first. *)
Fixpoint bar_updates (c : list out) : list Q :=
  match c with
  | [] => []
  | BarUpdate r :: c' => r :: bar_updates c'
  | _ :: c' => bar_updates c'
  end.

(** Each update passed the handler's test against the one before, and so
    is at least [least_advance] above it, [last] being what was reported
    before the first of them. *)
Fixpoint spaced (last : Q) (us : list Q) : Prop :=
  match us with
  | [] => True
  | u :: us' =>
      Qle_bool hundredth (js_sub u last) = true /\
      (last + least_advance <= u)%Q /\
      spaced u us'
  end.

Definition is_close (ev : event) : bool :=
  match ev with EvClose _ => true | _ => false end.

(** The events of an archive before its output closes. *)
Definition before_close (evs : list event) : Prop :=
  forallb (fun ev => negb (is_close ev)) evs = true.

(** The sample disk with a temporary folder left over from a cycle that
    failed. *)
Definition leftover_root : node :=
  Dir [("srv", Dir [("world", sample_world)]);
       ("tmp", Dir [("temp_backup_world",
                     Dir [("old.dat", File 99); ("level.dat", File 1)])]);
       ("backups", Dir [])].

(** ** The doubles of the kernel *)

(** The value of a finite binary64 number of Rocq's kernel, in lowest
    terms. *)
Definition Q_of_float (f : float) : option Q :=
  match Prim2SF f with
  | S754_zero _ => Some 0%Q
  | S754_finite s m e =>
      let v := if 0 <=? e then inject_Z (Zpos m * 2 ^ e)
               else Qmake (Zpos m) (Z.to_pos (2 ^ (- e))) in
      Some (Qred (if s then (- v)%Q else v))
  | _ => None
  end.

(** The binary64 number nearest to an integer below 2^63 in absolute
    value. *)
Definition float_of_Z (z : Z) : float :=
  if z <? 0 then PrimFloat.opp (PrimFloat.of_uint63 (Uint63.of_Z (- z)))
  else PrimFloat.of_uint63 (Uint63.of_Z z).

(** The rational [q] is the value of the float [f]. *)
Definition is_float (q : Q) (f : float) : bool :=
  match Q_of_float f with
  | Some v => Z.eqb (Qnum q) (Qnum v) && Pos.eqb (Qden q) (Qden v)
  | None => false
  end.

Definition interval (lo hi : Z) : list Z :=
  map (fun i => lo + Z.of_nat i) (seq 0 (Z.to_nat (hi - lo))).

(** ** Disjoint paths and well-named trees *)

(** Neither path leads to the other. *)
Definition disjoint (p q : list string) : bool :=
  negb (is_prefix p q) && negb (is_prefix q p).

Fixpoint distinct_names (l : list string) : bool :=
  match l with
  | [] => true
  | x :: r => negb (existsb (String.eqb x) r) && distinct_names r
  end.

(** No directory lists a name twice. *)
Fixpoint well_named (n : node) : bool :=
  match n with
  | Dir es =>
      distinct_names (map fst es) && forallb (fun e => well_named (snd e)) es
  | File _ | Locked | Dangling => true
  end.

(** The two disks agree at every path that is disjoint from each of
    [ps]. *)
Definition same_outside (ps : list (list string)) (a b : node) : Prop :=
  forall q, (forall p, In p ps -> disjoint p q = true) -> lookup q a = lookup q b.

(** ** The close handler *)

(** The handlers' variables after [if (bar) bar.update(1)]. *)
Definition bar_full (z : zip) : zip :=
  match bar z with
  | Some b =>
      {| zOutput := zOutput z; zTmp := zTmp z; totalBytes := totalBytes z;
         bar := Some {| total := total b; ratio := 1 |};
         lastPrintedProgress := lastPrintedProgress z;
         divisions := divisions z |}
  | None => z
  end.

(** What [if (bar) bar.update(1)] draws. *)
Definition bar_full_out (z : zip) : list out :=
  match bar z with
  | Some _ => [BarUpdate 1]
  | None => []
  end.

(** The temporary folder and the output file of a cycle. *)
Definition tmp_path (tmpdir : string) : string :=
  path_join tmpdir "temp_backup_world".

Definition zip_path (cfg : Config) (now : Date) : string :=
  path_join (zipFolderName cfg) (generateZipFilename now (folderName cfg)).

(** ** The order of calendar readings *)

Definition date_fields (now : Date) : list Z :=
  [getFullYear now; getMonth now; getDate now;
   getHours now; getMinutes now; getSeconds now].

(** Lexicographic comparison, most significant field first. *)
Fixpoint fields_compare (a b : list Z) : comparison :=
  match a, b with
  | x :: a', y :: b' =>
      match Z.compare x y with
      | Eq => fields_compare a' b'
      | c => c
      end
  | [], [] => Eq
  | [], _ :: _ => Lt
  | _ :: _, [] => Gt
  end.

Definition date_compare (a b : Date) : comparison :=
  fields_compare (date_fields a) (date_fields b).

(** ** The cycles in flight *)

(** The time of the last event of cycle [k]. *)
Definition cycle_end (dur : nat -> Z) (k : nat) : Z :=
  Z.of_nat k * INTERVAL + dur k.

(** The cycles started up to firing [fires] that are not over at that
    firing. *)
Definition unfinished (dur : nat -> Z) (fires : nat) : list nat :=
  filter (fun k => Z.of_nat fires * INTERVAL <? cycle_end dur k) (seq 0 (S fires)).

(** * Part III: properties *)

(** ** Numbers *)

Lemma round_half_even_near (n d : Z) :
  0 < d -> - d <= 2 * (round_half_even n d * d - n) <= d.
Proof.
  intro Hd. unfold round_half_even.
  pose proof (Z.div_mod n d ltac:(lia)) as E.
  pose proof (Z.mod_pos_bound n d Hd) as B.
  destruct (Z.compare_spec (2 * (n mod d)) d) as [C | C | C];
    [destruct (Z.even (n / d)) | |]; nia.
Qed.

Lemma round_half_even_floor (n d : Z) :
  0 < d -> n / d <= round_half_even n d.
Proof.
  intro Hd. unfold round_half_even.
  destruct (2 * (n mod d) ?= d); [destruct (Z.even (n / d)) | |]; lia.
Qed.

(** A natural number below 2^53 is a double. *)
Lemma round53_small (n : N) : (n < 2 ^ 53)%N -> round53 n = n.
Proof.
  intro H. unfold round53. apply N.ltb_lt in H. now rewrite H.
Qed.

(** Only zero rounds to zero. *)
Lemma round53_zero (n : N) : round53 n = 0%N <-> n = 0%N.
Proof.
  split; [| intros ->; reflexivity].
  unfold round53. destruct (n <? 2 ^ 53)%N eqn:E; [auto |].
  apply N.ltb_ge in E. intro H. exfalso.
  assert (Hn : (0 < n)%N) by (assert (0 < 2 ^ 53)%N by reflexivity; lia).
  set (ulp := (2 ^ (N.log2 n - 52))%N) in *.
  assert (Hu : (0 < ulp)%N).
  { unfold ulp. apply N.neq_0_lt_0. apply N.pow_nonzero. discriminate. }
  assert (Hle : (ulp <= n)%N).
  { unfold ulp. transitivity (2 ^ N.log2 n)%N.
    - apply N.pow_le_mono_r; [discriminate | lia].
    - apply N.log2_spec. exact Hn. }
  pose proof (round_half_even_floor (Z.of_N n) (Z.of_N ulp) ltac:(lia)) as F.
  assert (L : 1 <= Z.of_N n / Z.of_N ulp) by (apply Z.div_le_lower_bound; lia).
  apply N.eq_mul_0 in H. destruct H as [H | H]; [| lia].
  assert (Z0 : Z.of_N (Z.to_N (round_half_even (Z.of_N n) (Z.of_N ulp))) = 0) by lia.
  rewrite Z2N.id in Z0; lia.
Qed.

(** The scaled operand of [round_pos] is at least 2^52. *)
Lemma binade_lower (n d : positive) :
  let k := 53 - (Z.log2 (Zpos n) - Z.log2 (Zpos d)) in
  let up := Z.max 0 k in
  let down0 := Z.max 0 (- k) in
  let down := if 2 ^ 53 * (Zpos d * 2 ^ down0) <=? Zpos n * 2 ^ up
              then down0 + 1 else down0 in
  0 <= up /\ 0 <= down /\
  2 ^ 52 * (Zpos d * 2 ^ down) <= Zpos n * 2 ^ up.
Proof.
  intros k up down0 down.
  assert (Hup : 0 <= up) by (unfold up; lia).
  assert (Hd0 : 0 <= down0) by (unfold down0; lia).
  split; [exact Hup |].
  unfold down.
  destruct (Z.leb_spec (2 ^ 53 * (Zpos d * 2 ^ down0)) (Zpos n * 2 ^ up)) as [T | T].
  - split; [lia |]. rewrite Z.pow_add_r by lia.
    change (2 ^ 53) with (2 ^ 52 * 2) in T. change (2 ^ 1) with 2. lia.
  - split; [exact Hd0 |].
    destruct (Z.log2_spec (Zpos n) ltac:(lia)) as [Ln _].
    destruct (Z.log2_spec (Zpos d) ltac:(lia)) as [_ Ld].
    pose proof (Z.log2_nonneg (Zpos n)) as Pn.
    pose proof (Z.log2_nonneg (Zpos d)) as Pd.
    set (ln := Z.log2 (Zpos n)) in *. set (ld := Z.log2 (Zpos d)) in *.
    destruct (Z.le_gt_cases 0 k) as [K | K].
    + assert (Eu : up = k) by (unfold up; lia).
      assert (Ed : down0 = 0) by (unfold down0; lia).
      rewrite Eu, Ed. change (2 ^ 0) with 1.
      assert (E : 2 ^ ln * 2 ^ k = 2 ^ 52 * 2 ^ Z.succ ld).
      { rewrite <- !Z.pow_add_r by lia. f_equal. unfold k. lia. }
      assert (0 < 2 ^ k) by (apply Z.pow_pos_nonneg; lia).
      nia.
    + assert (Eu : up = 0) by (unfold up; lia).
      assert (Ed : down0 = - k) by (unfold down0; lia).
      rewrite Eu, Ed. change (2 ^ 0) with 1.
      assert (E : 2 ^ ln = 2 ^ 52 * 2 ^ Z.succ ld * 2 ^ (- k)).
      { rewrite <- !Z.pow_add_r by lia. f_equal. unfold k. lia. }
      assert (0 < 2 ^ (- k)) by (apply Z.pow_pos_nonneg; lia).
      nia.
Qed.

(** Rounding moves a positive rational by at most one part in 2^53. *)
Lemma round_pos_bounds (n d : positive) :
  ((Zpos n # d) * (1 - (1 # 2 ^ 53)) <= round_pos n d /\
   round_pos n d <= (Zpos n # d) * (1 + (1 # 2 ^ 53)))%Q.
Proof.
  unfold round_pos.
  destruct (binade_lower n d) as (Hup & Hdown & HB).
  cbv zeta in HB, Hdown, Hup.
  set (k := 53 - (Z.log2 (Zpos n) - Z.log2 (Zpos d))) in *.
  set (up := Z.max 0 k) in *.
  set (down := if 2 ^ 53 * (Zpos d * 2 ^ Z.max 0 (- k)) <=? Zpos n * 2 ^ up
               then Z.max 0 (- k) + 1 else Z.max 0 (- k)) in *.
  assert (PU : 0 < 2 ^ up) by (apply Z.pow_pos_nonneg; lia).
  assert (PD : 0 < 2 ^ down) by (apply Z.pow_pos_nonneg; lia).
  pose proof (round_half_even_near (Zpos n * 2 ^ up) (Zpos d * 2 ^ down) ltac:(lia)) as R.
  set (m := round_half_even (Zpos n * 2 ^ up) (Zpos d * 2 ^ down)) in *.
  rewrite Qred_correct.
  unfold Qle, Qmult, Qminus, Qplus, Qopp. cbn [Qnum Qden].
  rewrite Z2Pos.id by exact PU.
  set (U := 2 ^ up) in *. set (Dn := 2 ^ down) in *.
  rewrite !Pos2Z.inj_mul.
  change (Z.pos (2 ^ 53)) with (2 ^ 53). change (2 ^ 52) with 4503599627370496 in HB.
  change (2 ^ 53) with 9007199254740992.
  split; nia.
Qed.

(** The double of a positive number is positive, within one part in 2^53
    of it. *)
Lemma double_pos (x : Q) :
  (0 < x)%Q ->
  (x * (1 - (1 # 2 ^ 53)) <= double x /\ double x <= x * (1 + (1 # 2 ^ 53)))%Q.
Proof.
  intro H. unfold double. destruct x as [[| n | n] d].
  - exfalso. revert H. unfold Qlt. simpl. lia.
  - apply round_pos_bounds.
  - exfalso. revert H. unfold Qlt. simpl. lia.
Qed.

(** The double of a number that is not positive is not positive. *)
Lemma double_nonpos (x : Q) : (x <= 0)%Q -> (double x <= 0)%Q.
Proof.
  intro H. unfold double. destruct x as [[| n | n] d]; cbn [Qnum Qden].
  - apply Qle_refl.
  - exfalso. revert H. unfold Qle. simpl. lia.
  - destruct (round_pos_bounds n d) as [L _].
    assert (P : (0 < Zpos n # d)%Q) by (unfold Qlt; simpl; lia).
    assert (E : (0 < 1 - (1 # 2 ^ 53))%Q) by reflexivity.
    assert (0 <= (Zpos n # d) * (1 - (1 # 2 ^ 53)))%Q by nra.
    lra.
Qed.

Lemma hundredth_value : hundredth = 5764607523034235 # 576460752303423488.
Proof. reflexivity. Qed.

(** When the difference computed in doubles reaches [0.01], the first
    number is above the second, by a hundredth up to rounding. *)
Lemma js_sub_reaches_hundredth (p l : Q) :
  Qle_bool hundredth (js_sub p l) = true ->
  (l < p /\ l + least_advance <= p)%Q.
Proof.
  intro H. apply Qle_bool_iff in H. rewrite hundredth_value in H.
  unfold js_sub in H.
  destruct (Qlt_le_dec 0 (p - l)) as [P | P].
  - destruct (double_pos (p - l) P) as [_ U].
    unfold least_advance.
    change (1 # 2 ^ 53)%Q with (1 # 9007199254740992)%Q in U.
    split; [lra |]. lra.
  - apply double_nonpos in P. exfalso. lra.
Qed.

(** The double that holds a byte count is within one part in 2^53 of
    it. *)
Lemma round53_bounds (n : N) :
  (n * (2 ^ 53 - 1) <= round53 n * 2 ^ 53 <= n * (2 ^ 53 + 1))%N.
Proof.
  unfold round53. destruct (n <? 2 ^ 53)%N eqn:E; [lia |].
  apply N.ltb_ge in E.
  assert (Hn : (0 < n)%N) by (assert (0 < 2 ^ 53)%N by reflexivity; lia).
  destruct (N.log2_spec n Hn) as [L _].
  assert (L52 : (52 <= N.log2 n)%N).
  { apply N.lt_succ_r. apply (N.pow_lt_mono_r_iff 2); [reflexivity |].
    apply N.le_lt_trans with n; [| apply N.log2_spec; exact Hn].
    change (2 ^ 52)%N with 4503599627370496%N.
    change (2 ^ 53)%N with 9007199254740992%N in E. lia. }
  assert (EP : (2 ^ N.log2 n = 2 ^ 52 * 2 ^ (N.log2 n - 52))%N).
  { rewrite <- N.pow_add_r. f_equal. lia. }
  set (ulp := (2 ^ (N.log2 n - 52))%N) in *.
  assert (Hu : (0 < ulp)%N).
  { unfold ulp. apply N.neq_0_lt_0. apply N.pow_nonzero. discriminate. }
  pose proof (round_half_even_near (Z.of_N n) (Z.of_N ulp) ltac:(lia)) as R.
  pose proof (round_half_even_floor (Z.of_N n) (Z.of_N ulp) ltac:(lia)) as F.
  assert (P : 0 <= Z.of_N n / Z.of_N ulp) by (apply Z.div_pos; lia).
  set (m := round_half_even (Z.of_N n) (Z.of_N ulp)) in *.
  assert (Em : Z.of_N (Z.to_N m) = m) by (apply Z2N.id; lia).
  change (2 ^ 52)%N with 4503599627370496%N in *.
  change (2 ^ 53)%N with 9007199254740992%N in *.
  split; nia.
Qed.

Lemma Number_bounds (n : N) :
  (inject_Z (Z.of_N n) * (1 - (1 # 2 ^ 53)) <= Number n /\
   Number n <= inject_Z (Z.of_N n) * (1 + (1 # 2 ^ 53)))%Q.
Proof.
  destruct (round53_bounds n) as [L U]. unfold Number.
  change (2 ^ 53)%N with 9007199254740992%N in *.
  unfold Qle, Qmult, Qminus, Qplus, Qopp, inject_Z. cbn [Qnum Qden].
  change (Z.pos (2 ^ 53)) with 9007199254740992.
  split; lia.
Qed.

(** The fraction of a part of the total exceeds 1 by at most the rounding
    of the operands and of the quotient. *)
Lemma js_div_part (n t : N) :
  (0 < t)%N -> (n <= t)%N ->
  (js_div (Number n) (Number t) <= 1 + (1 # 2 ^ 51))%Q.
Proof.
  intros Ht Hn. unfold js_div.
  destruct (Number_bounds n) as [_ Un]. destruct (Number_bounds t) as [Lt _].
  assert (T : (0 < inject_Z (Z.of_N t))%Q).
  { change 0%Q with (inject_Z 0). rewrite <- Zlt_Qlt. lia. }
  assert (NT : (inject_Z (Z.of_N n) <= inject_Z (Z.of_N t))%Q)
    by (rewrite <- Zle_Qle; lia).
  change (1 # 2 ^ 53)%Q with (1 # 9007199254740992)%Q in *.
  change (1 # 2 ^ 51)%Q with (1 # 2251799813685248)%Q.
  assert (T' : (0 < Number t)%Q) by lra.
  assert (Q1 : (Number n / Number t
                <= 9007199254740993 # 9007199254740991)%Q).
  { apply Qle_shift_div_r; [exact T' |]. lra. }
  destruct (Qlt_le_dec 0 (Number n / Number t)) as [P | P].
  - destruct (double_pos _ P) as [_ U].
    change (1 # 2 ^ 53)%Q with (1 # 9007199254740992)%Q in U. lra.
  - apply double_nonpos in P. lra.
Qed.

(** [round53], [double] and the operations built on them compute what the
    binary64 arithmetic of Rocq's kernel computes: quotients of byte
    counts, differences of two quotients, the literal [0.01], and sums of
    byte counts up to and beyond 2^53. *)
Example doubles_agree_with_binary64 :
  forallb (fun b =>
    forallb (fun a => is_float (js_div (Number (Z.to_N a)) (Number (Z.to_N b)))
                        (PrimFloat.div (float_of_Z a) (float_of_Z b)))
            (interval 0 (b + 1)))
    (interval 1 41) = true /\
  forallb (fun b =>
    forallb (fun a => is_float (js_div (Number (Z.to_N a)) (Number (Z.to_N b)))
                        (PrimFloat.div (float_of_Z a) (float_of_Z b)))
            [1; 3; 995; 2 ^ 52 + 1; 2 ^ 53 - 1; 2 ^ 53 + 1; 2 ^ 54 + 2])
    [3; 7; 100; 1000; 2 ^ 52 + 1; 2 ^ 53 - 1; 2 ^ 53 + 1; 2 ^ 53 + 3;
     2 ^ 60 + 1] = true /\
  forallb (fun a =>
    forallb (fun b =>
      is_float (js_sub (js_div (Number (Z.to_N a)) (Number 100))
                       (js_div (Number (Z.to_N b)) (Number 100)))
        (PrimFloat.sub (PrimFloat.div (float_of_Z a) (float_of_Z 100))
                       (PrimFloat.div (float_of_Z b) (float_of_Z 100))))
      (interval 0 101))
    (interval 0 101) = true /\
  is_float hundredth (PrimFloat.div (float_of_Z 1) (float_of_Z 100)) = true /\
  forallb (fun a =>
    forallb (fun b =>
      is_float (inject_Z (Z.of_N (js_add (Z.to_N a) (Z.to_N b))))
        (PrimFloat.add (float_of_Z a) (float_of_Z b)))
      [0; 1; 2; 3; 2 ^ 32; 2 ^ 52 + 1; 2 ^ 53 - 1; 2 ^ 53; 2 ^ 53 + 1;
       2 ^ 53 + 2; 2 ^ 53 + 3; 2 ^ 54 + 4; 2 ^ 54 + 6; 2 ^ 60 + 1])
    [0; 1; 2; 3; 5; 2 ^ 32; 2 ^ 52 + 1; 2 ^ 53 - 1; 2 ^ 53; 2 ^ 53 + 1;
     2 ^ 53 + 2; 2 ^ 53 + 3; 2 ^ 54 + 4; 2 ^ 54 + 6; 2 ^ 60 + 1] = true.
Proof. split; [| split; [| split; [| split]]]; vm_compute; reflexivity. Qed.

(** ** getFolderSize *)

Lemma getSize_unfold (dir : node) (totalSize : N) :
  getSize dir totalSize =
  match readdir dir with
  | Ok files => for_files getSize files totalSize
  | Err e => Err e
  end.
Proof. destruct dir; reflexivity. Qed.

Lemma running_total_app (a b : list N) (t : N) :
  running_total (a ++ b) t = running_total b (running_total a t).
Proof. apply fold_left_app. Qed.

(** While the exact total stays below 2^53 no addition rounds. *)
Lemma running_total_exact (sizes : list N) :
  forall t, (t + sum_bytes sizes < 2 ^ 53)%N ->
    running_total sizes t = (t + sum_bytes sizes)%N.
Proof.
  induction sizes as [| x l IH]; intros t H; simpl in *.
  - lia.
  - unfold js_add.
    rewrite (round53_small t), (round53_small x), (round53_small (t + x)) by lia.
    fold (running_total l (t + x)%N). rewrite IH; lia.
Qed.

(** The total is zero only when it starts at zero and every file is
    empty. *)
Lemma running_total_zero (sizes : list N) :
  forall t, running_total sizes t = 0%N <->
            t = 0%N /\ Forall (fun s => s = 0%N) sizes.
Proof.
  induction sizes as [| x l IH]; intro t; simpl.
  - split; [auto | tauto].
  - fold (running_total l (js_add t x)). rewrite IH. unfold js_add.
    rewrite round53_zero, N.eq_add_0, !round53_zero. split.
    + intros [[Ht Hx] F]. auto.
    + intros [Ht F]. inversion F; subst. auto.
Qed.

(** On a readable entry the walk adds the bytes of its files, one by one,
    to the running total. *)
Lemma getSize_readable (n : node) :
  forall es, n = Dir es -> readable n = true ->
  forall t, getSize n t = Ok (running_total (regular_files n) t).
Proof.
  induction n as [sz | files IH | | ] using node_induction;
    intros es E R t; try discriminate.
  clear es E. simpl in R. simpl.
  revert t. induction files as [| [name entry] rest IHrest]; intro t.
  - reflexivity.
  - simpl in R. apply andb_prop in R. destruct R as [Re Rrest].
    inversion IH as [| ? ? IHe IHr]; subst.
    cbn [flat_map snd]. rewrite running_total_app.
    destruct entry as [sz | es' | | ]; simpl in Re; try discriminate.
    + cbn [for_files stat isDirectory size]. rewrite (IHrest IHr Rrest). reflexivity.
    + specialize (IHe es' eq_refl Re t). cbn [snd] in IHe.
      cbn [for_files stat isDirectory]. rewrite IHe.
      rewrite (IHrest IHr Rrest). reflexivity.
Qed.

(** An entry that cannot be read or [stat]ed rejects the walk, wherever it
    is. *)
Lemma getSize_unreadable (n : node) :
  readable n = false -> forall t, is_ok (getSize n t) = false.
Proof.
  induction n as [sz | files IH | | ] using node_induction;
    intros R t; try discriminate; try reflexivity.
  simpl in R. simpl. revert t.
  induction files as [| [name entry] rest IHrest]; intro t.
  - discriminate.
  - simpl in R. inversion IH as [| ? ? IHe IHr]; subst. simpl in IHe.
    apply andb_false_iff in R.
    simpl. destruct entry as [sz | es' | | ]; simpl in *; try reflexivity.
    + destruct R as [R | R]; [discriminate | apply (IHrest IHr R)].
    + destruct (forallb (fun e => readable (snd e)) es') eqn:Re.
      * destruct R as [R | R]; [discriminate |].
        destruct (for_files getSize es' t); [apply (IHrest IHr R) | reflexivity].
      * specialize (IHe eq_refl t).
        destruct (for_files getSize es' t); [discriminate | reflexivity].
Qed.

Lemma getSize_ok_iff (n : node) (t : N) :
  is_ok (getSize n t) = directory_tree n.
Proof.
  destruct n as [sz | es | | ]; try reflexivity.
  unfold directory_tree.
  destruct (readable (Dir es)) eqn:R.
  - rewrite (getSize_readable (Dir es) es eq_refl R). reflexivity.
  - apply getSize_unreadable. exact R.
Qed.

(** C3, as stated, fails: the total is a double.  On a folder of three
    files of 2^53, 1 and 2^32 bytes, 9007203549708289 bytes in all, the
    first addition rounds 2^53 + 1 to 2^53 and [getFolderSize] returns
    9007203549708288. *)
Lemma getFolderSize_rounds_above_2_53 :
  resolve (segments "/srv/world") (root_with huge_world) = Ok huge_world /\
  directory_tree huge_world = true /\
  sum_bytes (regular_files huge_world) = 9007203549708289%N /\
  getFolderSize "/srv/world" (root_with huge_world) = Ok 9007203549708288%N.
Proof. repeat split. Qed.

(** C3, amended.  For every directory tree T (a directory whose entries
    can all be read), [getFolderSize] returns the total of the byte lengths
    of the files reachable under T, recursing into sub-directories, added
    one by one as doubles in the order of the walk; when the sum of the
    lengths is below 2^53 no addition rounds and the result is exactly that
    sum. *)
Theorem getFolderSize_exact_below_2_53 :
  forall (root : node) (folderPath : string) (T : node),
    resolve (segments folderPath) root = Ok T ->
    directory_tree T = true ->
    getFolderSize folderPath root = Ok (running_total (regular_files T) 0) /\
    ((sum_bytes (regular_files T) < 2 ^ 53)%N ->
     getFolderSize folderPath root = Ok (sum_bytes (regular_files T))).
Proof.
  intros root folderPath T HT HD.
  unfold getFolderSize. rewrite HT.
  destruct T as [sz | es | | ]; try discriminate.
  rewrite (getSize_readable (Dir es) es eq_refl HD).
  split; [reflexivity |].
  intro B. rewrite running_total_exact by exact B. reflexivity.
Qed.

Lemma getFolderSize_exact_below_2_53_witness :
  resolve (segments "/srv/world") sample_root = Ok sample_world /\
  directory_tree sample_world = true /\
  (sum_bytes (regular_files sample_world) < 2 ^ 53)%N /\
  getFolderSize "/srv/world" sample_root = Ok 52%N.
Proof.
  assert (B : (sum_bytes (regular_files sample_world) < 2 ^ 53)%N) by reflexivity.
  split; [reflexivity | split; [reflexivity | split; [exact B |]]].
  exact (proj2 (getFolderSize_exact_below_2_53 sample_root "/srv/world" sample_world
                  eq_refl eq_refl) B).
Defined.



(** ** File names *)

Lemma append_assoc (a b c : string) : (a ++ b) ++ c = a ++ (b ++ c).
Proof.
  induction a as [| x a IH]; simpl; [reflexivity | now rewrite IH].
Qed.

Lemma length_append (a b : string) :
  String.length (a ++ b) = (String.length a + String.length b)%nat.
Proof.
  induction a as [| x a IH]; simpl; [reflexivity | now rewrite IH].
Qed.

Lemma append_inv_head (a x y : string) : a ++ x = a ++ y -> x = y.
Proof.
  induction a as [| c a IH]; simpl; intro H.
  - exact H.
  - injection H as H. auto.
Qed.

Lemma append_inv_tail (s x y : string) : x ++ s = y ++ s -> x = y.
Proof.
  revert y. induction x as [| c x IH]; intros [| d y] H; simpl in H.
  - reflexivity.
  - apply (f_equal String.length) in H. simpl in H.
    rewrite length_append in H. lia.
  - apply (f_equal String.length) in H. simpl in H.
    rewrite length_append in H. lia.
  - injection H as Hc H. subst d. f_equal. auto.
Qed.

Lemma decimalb_sound (k : nat) (s : string) (v : Z) :
  decimalb k s v = true -> decimal k s v.
Proof.
  unfold decimalb, decimal. intro H.
  apply andb_prop in H. destruct H as [Hl Hv].
  apply Nat.eqb_eq in Hl.
  destruct (digits_value s 0) as [v' |]; [| discriminate].
  apply Z.eqb_eq in Hv. subst. auto.
Qed.

(** A boolean test that holds on each of [lo], [lo + 1], ..., checked by
    evaluation, holds on the interval. *)
Lemma forall_interval (P : Z -> bool) (lo hi : Z) :
  forallb P (map (fun i => lo + Z.of_nat i) (seq 0 (Z.to_nat (hi - lo)))) = true ->
  forall v, lo <= v < hi -> P v = true.
Proof.
  intros H v Hv.
  rewrite forallb_forall in H. apply H.
  apply in_map_iff. exists (Z.to_nat (v - lo)). split.
  - lia.
  - apply in_seq. lia.
Qed.

(** [String(v).padStart(2, "0")] writes [v] with two digits. *)
Lemma padStart_two_digits (v : Z) :
  0 <= v <= 99 -> decimal 2 (padStart (String_of_Z v) 2 "0") v.
Proof.
  intro Hv. apply decimalb_sound.
  apply (forall_interval
           (fun v => decimalb 2 (padStart (String_of_Z v) 2 "0") v) 0 100).
  - vm_compute. reflexivity.
  - lia.
Qed.

(** [String(year)] has four digits from year 1000 to year 9999. *)
Lemma year_four_digits (v : Z) :
  1000 <= v <= 9999 -> decimal 4 (String_of_Z v) v.
Proof.
  intro Hv. apply decimalb_sound.
  apply (forall_interval (fun v => decimalb 4 (String_of_Z v) v) 1000 10000).
  - vm_compute. reflexivity.
  - lia.
Qed.

Lemma timestamp_same_second (a b : Date) :
  same_second a b -> timestamp a = timestamp b.
Proof.
  intros (Hy & Hm & Hd & Hh & Hi & Hs). unfold timestamp.
  rewrite Hy, Hm, Hd, Hh, Hi, Hs. reflexivity.
Qed.

(** C8. Under a wall-clock reading (year 1000 to 9999),
    [generateZipFilename] returns YYYY-MM-DD_HH-MM-SS_<basename>.zip, the
    year written with four digits and month (counted from 1), day, hours,
    minutes and seconds each with two, zero-padded; and two names generated
    within the same second for different basenames differ. *)
Theorem generateZipFilename_shape :
  (forall (now : Date) (folderPath : string),
     wall_clock now ->
     exists Y M D h m s : string,
       generateZipFilename now folderPath =
         Y ++ "-" ++ M ++ "-" ++ D ++ "_" ++ h ++ "-" ++ m ++ "-" ++ s
           ++ "_" ++ basename folderPath ++ ".zip" /\
       decimal 4 Y (getFullYear now) /\
       decimal 2 M (getMonth now + 1) /\
       decimal 2 D (getDate now) /\
       decimal 2 h (getHours now) /\
       decimal 2 m (getMinutes now) /\
       decimal 2 s (getSeconds now)) /\
  (forall (now1 now2 : Date) (folderPath1 folderPath2 : string),
     same_second now1 now2 ->
     basename folderPath1 <> basename folderPath2 ->
     generateZipFilename now1 folderPath1 <> generateZipFilename now2 folderPath2).
Proof.
  split.
  - intros now folderPath (Hy & Hm & Hd & Hh & Hi & Hs).
    exists (String_of_Z (getFullYear now)),
           (padStart (String_of_Z (getMonth now + 1)) 2 "0"),
           (padStart (String_of_Z (getDate now)) 2 "0"),
           (padStart (String_of_Z (getHours now)) 2 "0"),
           (padStart (String_of_Z (getMinutes now)) 2 "0"),
           (padStart (String_of_Z (getSeconds now)) 2 "0").
    split.
    + unfold generateZipFilename, timestamp. cbv zeta.
      repeat rewrite append_assoc. reflexivity.
    + repeat split;
        first [ apply year_four_digits; lia
              | apply padStart_two_digits; lia ].
  - intros now1 now2 p1 p2 Hsame Hne Heq.
    unfold generateZipFilename in Heq. cbv zeta in Heq.
    rewrite (timestamp_same_second now1 now2 Hsame) in Heq.
    apply append_inv_head in Heq.
    apply (append_inv_head "_") in Heq.
    apply append_inv_tail in Heq.
    contradiction.
Qed.

Lemma generateZipFilename_shape_witness :
  wall_clock sample_now /\
  same_second sample_now (mkDate 2025 2 7 9 5 3 870) /\
  basename "/srv/world/" <> basename "/srv/creative" /\
  generateZipFilename sample_now "/srv/world/" = "2025-03-07_09-05-03_world.zip" /\
  generateZipFilename sample_now "/srv/world/"
    <> generateZipFilename (mkDate 2025 2 7 9 5 3 870) "/srv/creative".
Proof.
  assert (W : wall_clock sample_now) by (unfold wall_clock; simpl; lia).
  assert (S : same_second sample_now (mkDate 2025 2 7 9 5 3 870))
    by (repeat split).
  assert (B : basename "/srv/world/" <> basename "/srv/creative")
    by (vm_compute; discriminate).
  split; [exact W | split; [exact S | split; [exact B | split]]].
  - destruct (proj1 generateZipFilename_shape sample_now "/srv/world/" W)
      as (Y & M & D & h & m & s & E & _).
    reflexivity.
  - exact (proj2 generateZipFilename_shape sample_now _ "/srv/world/" "/srv/creative" S B).
Defined.

(** ** Directory entries and paths *)

Lemma alookup_adelete_same (c : string) (es : list (string * node)) :
  alookup c (adelete c es) = None.
Proof.
  induction es as [| [k v] es IH]; simpl; [reflexivity |].
  destruct (String.eqb k c) eqn:E; simpl; [exact IH |].
  rewrite E. exact IH.
Qed.

Lemma alookup_ainsert_same (c : string) (v : node) (es : list (string * node)) :
  alookup c (ainsert c v es) = Some v.
Proof.
  induction es as [| [k w] es IH]; simpl.
  - now rewrite String.eqb_refl.
  - destruct (String.eqb k c) eqn:E; simpl; rewrite E; [reflexivity | exact IH].
Qed.

Lemma alookup_aset_same (c : string) (r : option node) (es : list (string * node)) :
  alookup c (aset c r es) = r.
Proof.
  destruct r; simpl; [apply alookup_ainsert_same | apply alookup_adelete_same].
Qed.

Lemma alookup_aset_other (c c' : string) (r : option node) (es : list (string * node)) :
  c <> c' -> alookup c' (aset c r es) = alookup c' es.
Proof.
  intro Hne. destruct r as [v |]; simpl.
  - induction es as [| [k w] es IH]; simpl.
    + destruct (String.eqb_spec c c'); [contradiction | reflexivity].
    + destruct (String.eqb_spec k c) as [-> | Hk]; simpl.
      * destruct (String.eqb_spec c c'); [contradiction | reflexivity].
      * destruct (String.eqb k c'); [reflexivity | exact IH].
  - induction es as [| [k w] es IH]; simpl; [reflexivity |].
    destruct (String.eqb_spec k c) as [-> | Hk]; simpl.
    + destruct (String.eqb_spec c c'); [contradiction | exact IH].
    + destruct (String.eqb k c'); [reflexivity | exact IH].
Qed.

(** Writing back what is there changes nothing. *)
Lemma aset_alookup_id (c : string) (es : list (string * node)) :
  aset c (alookup c es) es = es.
Proof.
  induction es as [| [k v] es IH]; simpl; [reflexivity |].
  destruct (String.eqb k c) eqn:E.
  - simpl. now rewrite E.
  - destruct (alookup c es) as [x |] eqn:L.
    + simpl in *. rewrite E. now rewrite IH.
    + unfold aset, adelete in *. simpl. rewrite E. simpl. now rewrite IH.
Qed.

Lemma oresolve_cons (c : string) (p : list string) (es : list (string * node)) :
  oresolve (c :: p) (Some (Dir es)) = oresolve p (alookup c es).
Proof. simpl. destruct (alookup c es); reflexivity. Qed.

Lemma olookup_cons (c : string) (p : list string) (es : list (string * node)) :
  olookup (c :: p) (Some (Dir es)) = olookup p (alookup c es).
Proof. unfold olookup, lookup. simpl. destruct (alookup c es); reflexivity. Qed.

Lemma olookup_oresolve (p : list string) (cur : option node) :
  olookup p cur = match oresolve p cur with Ok x => Some x | Err _ => None end.
Proof. destruct cur; reflexivity. Qed.

Lemma olookup_some_reaches (mk : bool) (p : list string) :
  forall cur x, olookup p cur = Some x -> reaches mk p cur = true.
Proof.
  induction p as [| c p IH]; intros cur x H; [reflexivity |].
  destruct cur as [[sz | es | | ] |]; try discriminate.
  rewrite olookup_cons in H. simpl. eauto.
Qed.

(** A write never removes the entry it starts from, unless it is a write at
    that very entry. *)
Lemma upd_keeps (mk : bool) (f : option node -> option node * result unit)
    (p : list string) (n : node) :
  (p = [] -> fst (f (Some n)) <> None) ->
  exists n', fst (upd mk p f (Some n)) = Some n'.
Proof.
  intro H. destruct p as [| c p].
  - simpl. specialize (H eq_refl).
    destruct (fst (f (Some n))) as [n' |]; [eauto | contradiction].
  - destruct n as [sz | es | | ]; simpl; eauto.
    destruct (upd mk p f (alookup c es)). simpl. eauto.
Qed.

(** What a write that gets to its end leaves there, and what it
    raises. *)
Lemma upd_reaches (mk : bool) (f : option node -> option node * result unit)
    (p : list string) :
  forall cur, reaches mk p cur = true ->
    snd (upd mk p f cur) = snd (f (olookup p cur)) /\
    olookup p (fst (upd mk p f cur)) = fst (f (olookup p cur)).
Proof.
  induction p as [| c p IH]; intros cur R.
  - simpl. destruct cur; simpl; split; try reflexivity;
      destruct (f _) as [[x |] st]; reflexivity.
  - destruct cur as [[sz | es | | ] |]; simpl in R; try discriminate.
    + specialize (IH (alookup c es) R). rewrite olookup_cons.
      cbn [upd]. destruct (upd mk p f (alookup c es)) as [r st].
      cbn [fst snd] in *.
      rewrite olookup_cons, alookup_aset_same. exact IH.
    + subst mk. assert (R' : reaches true p None = true) by (destruct p; reflexivity).
      specialize (IH None R'). cbn [upd].
      destruct (upd true p f None) as [r st]. cbn [fst snd] in *.
      rewrite olookup_cons, alookup_aset_same. exact IH.
Qed.

Lemma write_at_reaches (mk : bool) (f : option node -> option node * result unit)
    (p : list string) (root : node) :
  reaches mk p (Some root) = true ->
  (p = [] -> fst (f (Some root)) <> None) ->
  snd (write_at mk p f root) = snd (f (lookup p root)) /\
  lookup p (fst (write_at mk p f root)) = fst (f (lookup p root)).
Proof.
  intros R H. unfold write_at.
  destruct (upd_keeps mk f p root H) as [n' Hn'].
  destruct (upd_reaches mk f p (Some root) R) as [Hs Hl].
  destruct (upd mk p f (Some root)) as [r st]. simpl in *. subst r.
  simpl. auto.
Qed.

(** ** delFolder *)

Lemma readable_removable (n : node) : readable n = true -> removable n = true.
Proof.
  induction n as [sz | es IH | | ] using node_induction; intro R;
    try discriminate; try reflexivity.
  simpl in *. rewrite forallb_forall in *. rewrite Forall_forall in IH. auto.
Qed.

(** An entry that holds no closed directory is removed whole. *)
Lemma rm_node_removable (n : node) : removable n = true -> rm_node n = (None, Ok tt).
Proof.
  induction n as [sz | es IH | | ] using node_induction; intro R;
    try discriminate; try reflexivity.
  simpl in R. cbn [rm_node].
  assert (E : rm_entries rm_node es = ([], Ok tt)).
  { induction es as [| [name child] rest IHrest]; [reflexivity |].
    simpl in R. apply andb_prop in R. destruct R as [Rc Rr].
    inversion IH as [| ? ? IHc IHr]; subst. cbn [snd] in IHc.
    cbn [rm_entries]. rewrite (IHc Rc). rewrite (IHrest IHr Rr). reflexivity. }
  rewrite E. reflexivity.
Qed.

(** The removal of an entry either removes it whole, or stops with EACCES
    at a closed directory; what it leaves then, it leaves again, with the
    same error, when it is asked to remove it once more. *)
Lemma rm_node_cases (n : node) :
  rm_node n = (None, Ok tt) \/
  exists n', rm_node n = (Some n', Err EACCES) /\
             rm_node n' = (Some n', Err EACCES).
Proof.
  induction n as [sz | es IH | | ] using node_induction.
  - left. reflexivity.
  - assert (E : rm_entries rm_node es = ([], Ok tt) \/
                exists es', rm_entries rm_node es = (es', Err EACCES) /\
                            rm_entries rm_node es' = (es', Err EACCES)).
    { induction es as [| [name child] rest IHrest]; [left; reflexivity |].
      inversion IH as [| ? ? IHc IHr]; subst. cbn [snd] in IHc.
      cbn [rm_entries].
      destruct IHc as [Hc | [c' [Hc Hc']]]; rewrite Hc.
      - destruct (IHrest IHr) as [Hr | [es' [Hr Hr']]]; rewrite Hr.
        + left. reflexivity.
        + right. exists es'. auto.
      - right. exists ((name, c') :: rest). split; [reflexivity |].
        cbn [rm_entries]. rewrite Hc'. reflexivity. }
    cbn [rm_node]. destruct E as [E | [es' [E E']]]; rewrite E.
    + left. reflexivity.
    + right. exists (Dir es'). split; [reflexivity |].
      cbn [rm_node]. rewrite E'. reflexivity.
  - right. exists Locked. split; reflexivity.
  - left. reflexivity.
Qed.



Lemma rm_at_some (n : node) : rm_at true true (Some n) = rm_node n.
Proof. destruct n; reflexivity. Qed.


(** The recursive, forced removal at the end of a path: either it removes
    and the path is gone, or it raises; it raises ENOENT only on a path that
    is not there, and then nothing has changed. *)
Lemma upd_rm (p : list string) :
  forall cur r st,
    upd false p (rm_at true true) cur = (r, st) ->
    (st = Ok tt /\ oresolve p r = Err ENOENT) \/
    (exists e, st = Err e /\
               (e = ENOENT -> r = cur /\ oresolve p cur = Err ENOENT)).
Proof.
  induction p as [| c p IH]; intros cur r st H.
  - cbn [upd] in H. destruct cur as [n |].
    + rewrite rm_at_some in H.
      destruct (rm_node_cases n) as [E | [n' [E _]]]; rewrite E in H;
        inversion H; subst.
      * left. auto.
      * right. exists EACCES. split; [reflexivity | discriminate].
    + inversion H. left. auto.
  - destruct cur as [[sz | es | | ] |]; cbn [upd] in H.
    + inversion H; subst. right. exists ENOTDIR. split; [reflexivity | discriminate].
    + destruct (upd false p (rm_at true true) (alookup c es)) as [r' st'] eqn:U.
      inversion H; subst. clear H.
      destruct (IH _ _ _ U) as [[Hst Hr] | [e [Hst He]]].
      * left. split; [exact Hst |].
        rewrite oresolve_cons, alookup_aset_same. exact Hr.
      * right. exists e. split; [exact Hst |].
        intro E. destruct (He E) as [Hr Ha]. subst r'.
        rewrite aset_alookup_id, oresolve_cons. auto.
    + inversion H; subst. right. exists EACCES. split; [reflexivity | discriminate].
    + inversion H; subst. right. exists ENOENT. repeat split.
    + inversion H; subst. right. exists ENOENT. repeat split.
Qed.



Lemma rmSync_cases (path : string) (root : node) :
  (snd (rmSync path true true root) = Ok tt /\
   resolve (segments path) (fst (rmSync path true true root)) = Err ENOENT) \/
  (exists e, snd (rmSync path true true root) = Err e /\ e <> ENOENT).
Proof.
  unfold rmSync, write_at.
  destruct (upd false (segments path) (rm_at true true) (Some root))
    as [r st] eqn:U.
  destruct (upd_rm _ _ _ _ U) as [[Hst Hr] | [e [Hst He]]].
  - subst st. destruct r as [root' |].
    + left. simpl. auto.
    + right. exists EINVAL. simpl. split; [reflexivity | discriminate].
  - subst st. destruct r as [root' |].
    + destruct e; simpl;
        try (right; eexists; split; [reflexivity | discriminate]).
      left. split; [reflexivity |].
      destruct (He eq_refl) as [Hr Ha]. inversion Hr; subst. exact Ha.
    + right. exists EINVAL. simpl. split; [reflexivity | discriminate].
Qed.



Lemma upd_rm_ok (p : list string) :
  forall cur T, oresolve p cur = Ok T -> removable T = true ->
    snd (upd false p (rm_at true true) cur) = Ok tt.
Proof.
  induction p as [| c p IH]; intros cur T H R.
  - destruct cur as [n |]; [| discriminate]. simpl in H. inversion H; subst.
    cbn [upd]. rewrite rm_at_some, (rm_node_removable T R). reflexivity.
  - destruct cur as [[sz | es | | ] |]; try discriminate.
    rewrite oresolve_cons in H. specialize (IH _ _ H R). cbn [upd].
    destruct (upd false p (rm_at true true) (alookup c es)). exact IH.
Qed.



(** The removal of a folder that is there and holds no closed directory
    succeeds. *)
Lemma rmSync_existing (path : string) (root T : node) :
  resolve (segments path) root = Ok T ->
  removable T = true ->
  segments path <> [] ->
  snd (rmSync path true true root) = Ok tt /\
  resolve (segments path) (fst (rmSync path true true root)) = Err ENOENT.
Proof.
  intros H R Hne.
  assert (S : snd (rmSync path true true root) = Ok tt).
  { unfold rmSync, write_at.
    pose proof (upd_rm_ok (segments path) (Some root) T H R) as Hs.
    destruct (upd_keeps false (rm_at true true) (segments path) root) as [n' Hn'].
    - intro E. contradiction.
    - destruct (upd false (segments path) (rm_at true true) (Some root)) as [r st].
      simpl in *. subst. reflexivity. }
  split; [exact S |].
  destruct (rmSync_cases path root) as [[_ Hr] | [e [He _]]]; [exact Hr | congruence].
Qed.

(** [delFolder] is [rmSync] between two lines of log. *)
Lemma delFolder_unfold (path : string) (w : world) :
  delFolder path w =
  match rmSync path true true (fs w) with
  | (root', Ok _) =>
      ({| fs := root'; console := (console w ++ [LogDeleting]) ++ [LogDeleted] |},
       Ok tt)
  | (root', Err e) =>
      ({| fs := root'; console := console w ++ [LogDeleting] |}, Err e)
  end.
Proof.
  unfold delFolder, bind, log, lift_fs. simpl.
  destruct (rmSync path true true (fs w)) as [root' [[] | e]]; reflexivity.
Qed.





(** ** copyFolder *)

(** [mkdirSync] with [recursive] on a directory that is there. *)
Lemma upd_mkdir_existing (p : list string) :
  forall cur es, oresolve p cur = Ok (Dir es) ->
    upd true p mkdir_at cur = (cur, Ok tt).
Proof.
  induction p as [| c p IH]; intros cur es H.
  - destruct cur as [n |]; [| discriminate]. simpl in H. inversion H. reflexivity.
  - destruct cur as [[sz | es0 | | ] |]; try discriminate.
    rewrite oresolve_cons in H. cbn [upd].
    rewrite (IH _ _ H), aset_alookup_id. reflexivity.
Qed.

Lemma mkdirSync_existing (path : string) (root : node) (es : list (string * node)) :
  resolve (segments path) root = Ok (Dir es) ->
  mkdirSync path root = (root, Ok tt).
Proof.
  intro H. unfold mkdirSync, write_at.
  now rewrite (upd_mkdir_existing _ (Some root) es H).
Qed.

(** [mkdirSync] with [recursive] on a path that is not there. *)
Lemma mkdirSync_missing (path : string) (root : node) :
  lookup (segments path) root = None ->
  reaches true (segments path) (Some root) = true ->
  snd (mkdirSync path root) = Ok tt /\
  lookup (segments path) (fst (mkdirSync path root)) = Some (Dir []).
Proof.
  intros L R. unfold mkdirSync.
  destruct (write_at_reaches true mkdir_at (segments path) root R) as [Hs Hl].
  - intros _. destruct root; simpl; discriminate.
  - rewrite Hs, Hl, L. auto.
Qed.

Lemma cp_node_some (s d : node) : fst (cp_node s (Some d)) <> None.
Proof.
  destruct s as [sz | es | | ], d as [sz' | es' | | ]; simpl; try discriminate.
  destruct (copyDir cp_node es es'). discriminate.
Qed.

Lemma copyFolder_unfold (folderPath tmpFolderPath : string) (w : world) :
  copyFolder folderPath tmpFolderPath w =
  match mkdirSync folderPath (fs w) with
  | (root1, Err e) => ({| fs := root1; console := console w ++ [LogCopying] |}, Err e)
  | (root1, Ok _) =>
      match cpSync folderPath tmpFolderPath root1 with
      | (root2, Err e) =>
          ({| fs := root2; console := console w ++ [LogCopying] |}, Err e)
      | (root2, Ok _) =>
          ({| fs := root2; console := (console w ++ [LogCopying]) ++ [LogCopied] |},
           Ok tt)
      end
  end.
Proof.
  unfold copyFolder, bind, log, lift_fs. simpl.
  destruct (mkdirSync folderPath (fs w)) as [root1 [[] | e]]; [| reflexivity].
  simpl. destruct (cpSync folderPath tmpFolderPath root1) as [root2 [[] | e]];
    reflexivity.
Qed.

(** C4, as stated, fails on both counts.  The source [/srv/nothing] does
    not exist and [copyFolder] returns without an error, having created it;
    and the copy of a folder with an unreadable sub-directory raises EACCES
    with the entries copied before it still in the temporary folder. *)
Lemma copyFolder_missing_source_and_partial_copy :
  existsSync "/srv/nothing" sample_root = false /\
  snd (copyFolder "/srv/nothing" "/tmp/temp_backup_world" (mkWorld sample_root []))
    = Ok tt /\
  existsSync "/srv/nothing"
    (fs (fst (copyFolder "/srv/nothing" "/tmp/temp_backup_world"
                (mkWorld sample_root [])))) = true /\
  snd (copyFolder "/srv/world" "/tmp/temp_backup_world"
         (mkWorld (root_with locked_world) [])) = Err EACCES /\
  lookup ["tmp"; "temp_backup_world"]
    (fs (fst (copyFolder "/srv/world" "/tmp/temp_backup_world"
                (mkWorld (root_with locked_world) []))))
    = Some (Dir [("level.dat", File 10); ("region", Dir [])]).
Proof. repeat split. Qed.

(** C4, amended.  [copyFolder] raises no error for a source that does not
    exist: when every ancestor of the source that exists is a directory, it
    creates the source as an empty directory and its outcome is that of
    copying this empty directory.  When the copy of an existing source
    directory raises, the error propagates and the destination holds what
    [cpSync] had written: nothing is removed. *)
Theorem copyFolder_creates_source_keeps_partial_copy :
  forall (folderPath tmpFolderPath : string) (w : world),
    (lookup (segments folderPath) (fs w) = None ->
     reaches true (segments folderPath) (Some (fs w)) = true ->
     exists root1,
       mkdirSync folderPath (fs w) = (root1, Ok tt) /\
       lookup (segments folderPath) root1 = Some (Dir []) /\
       fs (fst (copyFolder folderPath tmpFolderPath w))
         = fst (cpSync folderPath tmpFolderPath root1) /\
       snd (copyFolder folderPath tmpFolderPath w)
         = snd (cpSync folderPath tmpFolderPath root1)) /\
    (forall (es : list (string * node)) (partial : option node) (e : errno),
       resolve (segments folderPath) (fs w) = Ok (Dir es) ->
       is_prefix (segments folderPath) (segments tmpFolderPath) = false ->
       reaches true (segments tmpFolderPath) (Some (fs w)) = true ->
       cp_node (Dir es) (lookup (segments tmpFolderPath) (fs w)) = (partial, Err e) ->
       snd (copyFolder folderPath tmpFolderPath w) = Err e /\
       lookup (segments tmpFolderPath) (fs (fst (copyFolder folderPath tmpFolderPath w)))
         = partial).
Proof.
  intros src tmp w. split.
  - intros L R.
    destruct (mkdirSync_missing src (fs w) L R) as [Hs Hl].
    exists (fst (mkdirSync src (fs w))).
    rewrite copyFolder_unfold.
    destruct (mkdirSync src (fs w)) as [root1 st]. simpl in *. subst st.
    repeat split; try assumption;
      destruct (cpSync src tmp root1) as [root2 [[] | e]]; reflexivity.
  - intros es partial e Hsrc Hpre R Hcp.
    rewrite copyFolder_unfold, (mkdirSync_existing src (fs w) es Hsrc).
    unfold cpSync. rewrite Hsrc, Hpre.
    destruct (write_at_reaches true (cp_node (Dir es)) (segments tmp) (fs w) R)
      as [Hs Hl].
    + intros _. apply cp_node_some.
    + rewrite Hcp in Hs, Hl. cbn [fst snd] in Hs, Hl.
      destruct (write_at true (segments tmp) (cp_node (Dir es)) (fs w))
        as [root2 st]. cbn [fst snd] in *. subst st. simpl. auto.
Qed.

Lemma copyFolder_creates_source_keeps_partial_copy_witness :
  lookup (segments "/srv/nothing") sample_root = None /\
  reaches true (segments "/srv/nothing") (Some sample_root) = true /\
  snd (copyFolder "/srv/nothing" "/tmp/temp_backup_world" (mkWorld sample_root []))
    = Ok tt /\
  snd (copyFolder "/srv/world" "/tmp/temp_backup_world"
         (mkWorld (root_with locked_world) [])) = Err EACCES /\
  lookup (segments "/tmp/temp_backup_world")
    (fs (fst (copyFolder "/srv/world" "/tmp/temp_backup_world"
                (mkWorld (root_with locked_world) []))))
    = Some (Dir [("level.dat", File 10); ("region", Dir [])]).
Proof.
  assert (L : lookup (segments "/srv/nothing") (fs (mkWorld sample_root [])) = None)
    by reflexivity.
  assert (R : reaches true (segments "/srv/nothing")
                (Some (fs (mkWorld sample_root []))) = true) by reflexivity.
  split; [exact L | split; [exact R |]].
  destruct (copyFolder_creates_source_keeps_partial_copy
              "/srv/nothing" "/tmp/temp_backup_world" (mkWorld sample_root []))
    as [A _].
  destruct (A L R) as (root1 & Hm & _ & _ & Hs).
  injection Hm as Hroot1. subst root1.
  split; [rewrite Hs; reflexivity |].
  destruct (copyFolder_creates_source_keeps_partial_copy
              "/srv/world" "/tmp/temp_backup_world"
              (mkWorld (root_with locked_world) []))
    as [_ B].
  exact (B [("level.dat", File 10); ("region", Locked); ("icon.png", File 4)]
           (Some (Dir [("level.dat", File 10); ("region", Dir [])])) EACCES
           eq_refl eq_refl eq_refl eq_refl).
Defined.

(** ** The progress handler *)

Lemma bar_updates_app (a b : list out) :
  bar_updates (a ++ b) = (bar_updates a ++ bar_updates b)%list.
Proof.
  induction a as [| o a IH]; simpl; [reflexivity |].
  destruct o; simpl; now rewrite ?IH.
Qed.

(** One progress event: the handler returns, the disk is untouched, and
    either nothing is drawn and the last printed fraction stays, or the
    current fraction is drawn, its difference to the last printed one
    computed in doubles reaches [0.01], it is above the last printed one by
    a hundredth up to rounding, and becomes the last printed one. *)
Lemma on_progress_step (processedBytes : N) (z : zip) (w : world) :
  exists w' z',
    on_progress processedBytes z w = (w', Ok z') /\
    fs w' = fs w /\
    totalBytes z' = totalBytes z /\
    bar_full_out z' = bar_full_out z /\
    ((console w' = console w /\
      lastPrintedProgress z' = lastPrintedProgress z) \/
     (console w' = (console w ++ [BarUpdate (fraction processedBytes z)])%list /\
      lastPrintedProgress z' = fraction processedBytes z /\
      Qle_bool hundredth
        (js_sub (fraction processedBytes z) (lastPrintedProgress z)) = true /\
      (lastPrintedProgress z + least_advance <= fraction processedBytes z)%Q)).
Proof.
  unfold on_progress, bar_full_out. fold (fraction processedBytes z).
  destruct (bar z) as [b |] eqn:Eb.
  - destruct (Qle_bool hundredth
                (js_sub (fraction processedBytes z) (lastPrintedProgress z))) eqn:E.
    + destruct (js_sub_reaches_hundredth _ _ E) as [_ A].
      eexists _, _. split; [reflexivity |]. simpl.
      repeat split. right. repeat split. exact A.
    + eexists _, _. split; [reflexivity |]. simpl.
      repeat split. left. split; reflexivity.
  - exists w, z. split; [reflexivity |]. rewrite ?Eb.
    repeat split. left. split; reflexivity.
Qed.

Lemma inject_Z_succ (n : nat) :
  (inject_Z (Z.of_nat (S n)) == inject_Z (Z.of_nat n) + 1)%Q.
Proof.
  rewrite Nat2Z.inj_succ. unfold Z.succ. rewrite inject_Z_plus. reflexivity.
Qed.


(** The events of an archive up to the close of its output: the handlers
    return, the disk is untouched, and the fractions drawn are spaced. *)
Lemma deliver_before_close (evs : list event) :
  forall (z : zip) (w : world),
    before_close evs ->
    exists w' z' us,
      deliver evs z w = (w', Ok z') /\
      fs w' = fs w /\
      totalBytes z' = totalBytes z /\
      bar_full_out z' = bar_full_out z /\
      bar_updates (console w') = (bar_updates (console w) ++ us)%list /\
      spaced (lastPrintedProgress z) us /\
      (lastPrintedProgress z
         + inject_Z (Z.of_nat (List.length us)) * least_advance
         <= lastPrintedProgress z')%Q.
Proof.
  induction evs as [| ev evs IH]; intros z w B.
  - exists w, z, []. simpl. rewrite app_nil_r.
    repeat split. change (inject_Z 0) with 0%Q. lra.
  - unfold before_close in B. simpl in B. apply andb_prop in B.
    destruct B as [Bev B].
    destruct ev as [n | err | zipSize]; [| | discriminate].
    + destruct (on_progress_step n z w) as (w1 & z1 & H1 & Hfs & Htot & Hb & Hcase).
      destruct (IH z1 w1 B)
        as (w' & z' & us & H2 & Hfs' & Htot' & Hb' & Hus & Hsp & Hcnt).
      cbn [deliver handle]. unfold bind at 1. rewrite H1.
      destruct Hcase as [[Hc Hl] | [Hc [Hl [Ht Hge]]]].
      * exists w', z', us. rewrite Hc in Hus. rewrite Hl in Hsp, Hcnt.
        repeat split; try assumption; congruence.
      * exists w', z', (fraction n z :: us).
        rewrite Hc, bar_updates_app in Hus. simpl in Hus.
        rewrite <- app_assoc in Hus. rewrite Hl in Hsp, Hcnt.
        repeat split; try assumption; try congruence.
        cbn [List.length]. rewrite inject_Z_succ. lra.
    + destruct (IH z {| fs := fs w; console := console w ++ [LogException err] |} B)
        as (w' & z' & us & H2 & Hfs' & Htot' & Hb' & Hus & Hsp & Hcnt).
      exists w', z', us.
      cbn [deliver handle]. unfold bind at 1, on_error, bind, log, ret. simpl.
      cbn [console fs] in Hus, Hfs'.
      rewrite bar_updates_app in Hus. simpl in Hus. rewrite app_nil_r in Hus.
      repeat split; assumption.
Qed.

Lemma deliver_app (a b : list event) :
  forall z w,
    deliver (a ++ b) z w =
    match deliver a z w with
    | (w', Ok z') => deliver b z' w'
    | (w', Err e) => (w', Err e)
    end.
Proof.
  induction a as [| ev a IH]; intros z w.
  - reflexivity.
  - cbn [deliver app]. unfold bind.
    destruct (handle ev z w) as [w1 [z1 | e]]; [apply IH | reflexivity].
Qed.

(** The close handler, step by step. *)
Lemma on_close_unfold (z : zip) (w : world) :
  on_close z w =
  match statSync (zOutput z) (fs w) with
  | Err e => ({| fs := fs w; console := console w ++ bar_full_out z |}, Err e)
  | Ok st =>
      match rmSync (zTmp z) true true (fs w) with
      | (root', Ok _) =>
          ({| fs := root';
              console := (console w ++ bar_full_out z)
                           ++ [LogZipped (totalBytes z) (size st);
                               LogDeleting; LogDeleted; LogWaiting] |},
           Ok (bar_full z))
      | (root', Err e) =>
          ({| fs := root';
              console := (console w ++ bar_full_out z)
                           ++ [LogZipped (totalBytes z) (size st); LogDeleting] |},
           Err e)
      end
  end.
Proof.
  unfold on_close, delFolder, bind, lift_fs, log, read_fs, ret, bar_full, bar_full_out.
  destruct (bar z) as [b |]; cbn [fs console];
    rewrite ?app_nil_r;
    (destruct (statSync (zOutput z) (fs w)) as [st | e];
     [| destruct w; reflexivity]);
    destruct (rmSync (zTmp z) true true (fs w)) as [root' [[] | e]];
    cbn [fs console]; repeat rewrite <- app_assoc; reflexivity.
Qed.





(** ** zipFolder on an empty tree *)

Lemma lookup_resolve (p : list string) (root x : node) :
  lookup p root = Some x <-> resolve p root = Ok x.
Proof.
  unfold lookup. destruct (resolve p root); split; intro H;
    inversion H; reflexivity.
Qed.

Lemma upd_open_ok (p : list string) :
  forall cur r, upd false p open_at cur = (r, Ok tt) -> olookup p r = Some (File 0).
Proof.
  induction p as [| c p IH]; intros cur r H.
  - simpl in H. destruct cur as [[sz | es | | ] |]; inversion H; reflexivity.
  - destruct cur as [[sz | es | | ] |]; cbn [upd] in H; try discriminate.
    destruct (upd false p open_at (alookup c es)) as [r' st] eqn:U.
    inversion H; subst.
    rewrite olookup_cons, alookup_aset_same. eauto.
Qed.

Lemma createWriteStream_ok (path : string) (root root' : node) :
  createWriteStream path root = (root', Ok tt) ->
  lookup (segments path) root' = Some (File 0).
Proof.
  unfold createWriteStream, write_at.
  destruct (upd false (segments path) open_at (Some root)) as [[r |] st] eqn:U;
    intro H; inversion H; subst.
  apply (upd_open_ok _ _ _ U).
Qed.

(** The bytes that reach the output file change its size and nothing
    else: every path resolves, or fails to, as before. *)
Lemma upd_flush_is_ok (n : N) (p : list string) :
  forall q cur,
    is_ok (oresolve q (fst (upd false p (flush_at n) cur))) = is_ok (oresolve q cur).
Proof.
  induction p as [| c p IH]; intros q cur.
  - simpl. destruct cur as [[sz | es | | ] |]; try reflexivity.
    destruct q; reflexivity.
  - destruct cur as [[sz | es | | ] |]; try reflexivity.
    cbn [upd]. destruct (upd false p (flush_at n) (alookup c es)) as [r st] eqn:U.
    cbn [fst]. destruct q as [| c' q]; [reflexivity |].
    rewrite !oresolve_cons.
    destruct (String.eqb_spec c c') as [<- | Hne].
    + rewrite alookup_aset_same.
      specialize (IH q (alookup c es)). rewrite U in IH. exact IH.
    + rewrite (alookup_aset_other c c' r es Hne). reflexivity.
Qed.

Lemma write_flush_is_ok (n : N) (p q : list string) (root : node) :
  is_ok (resolve q (fst (write_at false p (flush_at n) root)))
  = is_ok (resolve q root).
Proof.
  unfold write_at.
  pose proof (upd_flush_is_ok n p q (Some root)) as H.
  destruct (upd false p (flush_at n) (Some root)) as [[r |] st]; [exact H | reflexivity].
Qed.

Lemma forallb_ainsert (f : node -> bool) (c : string) (v : node)
    (es : list (string * node)) :
  forallb (fun e => f (snd e)) es = true -> f v = true ->
  forallb (fun e => f (snd e)) (ainsert c v es) = true.
Proof.
  intros H Hv. induction es as [| [k w] es IH]; simpl in *.
  - now rewrite Hv.
  - apply andb_prop in H. destruct H as [Hw Hes].
    destruct (String.eqb k c); simpl; [now rewrite Hv, Hes |].
    now rewrite Hw, IH.
Qed.

Lemma forallb_alookup (f : node -> bool) (c : string) (v : node)
    (es : list (string * node)) :
  forallb (fun e => f (snd e)) es = true -> alookup c es = Some v -> f v = true.
Proof.
  intros H L. induction es as [| [k w] es IH]; simpl in *; [discriminate |].
  apply andb_prop in H. destruct H as [Hw Hes].
  destruct (String.eqb k c); [inversion L; subst; exact Hw | auto].
Qed.

(** The bytes that reach the output file leave every folder as removable
    as it was. *)
Lemma upd_flush_removable (n : N) (p : list string) :
  forall q cur T,
    oresolve q cur = Ok T -> removable T = true ->
    exists T', oresolve q (fst (upd false p (flush_at n) cur)) = Ok T' /\
               removable T' = true.
Proof.
  induction p as [| c p IH]; intros q cur T H R.
  - cbn [upd]. destruct cur as [[sz | es | | ] |]; try (exists T; auto; fail).
    destruct q; [| discriminate]. exists (File n). auto.
  - destruct cur as [[sz | es | | ] |]; try (exists T; auto; fail).
    cbn [upd]. destruct (upd false p (flush_at n) (alookup c es)) as [r st] eqn:U.
    cbn [fst]. destruct q as [| d q].
    + simpl in H. inversion H; subst. clear H.
      exists (Dir (aset c r es)). split; [reflexivity |].
      simpl in R. cbn [removable].
      destruct (alookup c es) as [child |] eqn:A.
      * pose proof (forallb_alookup removable c child es R A) as Rc.
        destruct (IH [] (Some child) child eq_refl Rc) as (T' & HT' & RT').
        rewrite U in HT'. cbn [fst] in HT'.
        destruct r as [v |]; [| discriminate]. simpl in HT'. inversion HT'; subst.
        apply forallb_ainsert; assumption.
      * assert (E : r = None).
        { destruct p; cbn [upd flush_at] in U; inversion U; reflexivity. }
        subst r. pose proof (aset_alookup_id c es) as I. rewrite A in I.
        rewrite I. exact R.
    + rewrite oresolve_cons in H. rewrite oresolve_cons.
      destruct (String.eqb_spec c d) as [<- | Hne].
      * rewrite alookup_aset_same.
        specialize (IH q (alookup c es) T H R). rewrite U in IH. exact IH.
      * rewrite (alookup_aset_other c d r es Hne). exists T. auto.
Qed.

Lemma write_flush_removable (n : N) (p q : list string) (root T : node) :
  resolve q root = Ok T -> removable T = true ->
  exists T', resolve q (fst (write_at false p (flush_at n) root)) = Ok T' /\
             removable T' = true.
Proof.
  intros H R. unfold write_at.
  destruct (upd_flush_removable n p q (Some root) T H R) as (T' & HT' & RT').
  destruct (upd false p (flush_at n) (Some root)) as [[r |] st].
  - exists T'. auto.
  - exists T. auto.
Qed.

Lemma write_flush_size (n k : N) (p : list string) (root : node) :
  lookup p root = Some (File k) ->
  lookup p (fst (write_at false p (flush_at n) root)) = Some (File n).
Proof.
  intro L.
  destruct (write_at_reaches false (flush_at n) p root) as [_ Hl].
  - apply (olookup_some_reaches false p (Some root) (File k)). exact L.
  - intros _. destruct root; discriminate.
  - rewrite Hl, L. reflexivity.
Qed.

(** Without a bar the events before the close leave the handlers' state as
    it was and draw nothing. *)
Lemma deliver_no_bar (evs : list event) :
  forall z w,
    bar z = None -> before_close evs ->
    exists w', deliver evs z w = (w', Ok z) /\
               fs w' = fs w /\
               bar_updates (console w') = bar_updates (console w).
Proof.
  induction evs as [| ev evs IH]; intros z w Hb B.
  - exists w. auto.
  - unfold before_close in B. simpl in B. apply andb_prop in B.
    destruct B as [Bev B].
    destruct ev as [n | err | zipSize]; [| | discriminate];
      cbn [deliver handle]; unfold bind at 1.
    + unfold on_progress. rewrite Hb. unfold ret. apply IH; assumption.
    + unfold on_error, bind, log, ret. simpl.
      destruct (IH z {| fs := fs w; console := console w ++ [LogException err] |} Hb B)
        as (w' & H & Hfs & Hus).
      exists w'. cbn [console fs] in *.
      rewrite bar_updates_app in Hus. simpl in Hus. rewrite app_nil_r in Hus.
      auto.
Qed.

Lemma zipFolder_ok (folderPath outputZipPath tmpFolder : string) (w w1 : world) (z : zip) :
  zipFolder folderPath outputZipPath tmpFolder w = (w1, Ok z) ->
  exists root1 total,
    createWriteStream outputZipPath (fs w) = (root1, Ok tt) /\
    getFolderSize folderPath root1 = Ok total /\
    w1 = {| fs := root1; console := console w ++ [LogZipping] |} /\
    z = {| zOutput := outputZipPath; zTmp := tmpFolder; totalBytes := total;
           bar := if (0 <? total)%N
                  then Some {| total := total; ratio := 0 |} else None;
           lastPrintedProgress := 0; divisions := [] |}.
Proof.
  unfold zipFolder, bind, lift_fs, log, read_fs, ret. simpl.
  destruct (createWriteStream outputZipPath (fs w)) as [root1 [[] | e]];
    [| discriminate].
  simpl. destruct (getFolderSize folderPath root1) as [total | e] eqn:G;
    [| discriminate].
  intro H. inversion H. exists root1, total. repeat split. exact G.
Qed.

(** The close handler when there is no bar, the output file is there and
    the temporary folder can be removed. *)
Lemma on_close_no_bar (z : zip) (w : world) (st : Stats) :
  bar z = None ->
  statSync (zOutput z) (fs w) = Ok st ->
  snd (rmSync (zTmp z) true true (fs w)) = Ok tt ->
  on_close z w =
  ({| fs := fst (rmSync (zTmp z) true true (fs w));
      console := console w ++ [LogZipped (totalBytes z) (size st);
                               LogDeleting; LogDeleted; LogWaiting] |}, Ok z).
Proof.
  intros Hb Hst Hrm.
  unfold on_close, delFolder, bind, lift_fs, log, read_fs, ret. rewrite Hb.
  simpl. rewrite Hst. simpl.
  destruct (rmSync (zTmp z) true true (fs w)) as [root' r]. simpl in *. subst r.
  simpl. repeat rewrite <- app_assoc. reflexivity.
Qed.

(** C7. When the total is 0 no bar is created; whatever progress and error
    events the archive then emits, the handler draws nothing and evaluates
    no division by the total; and when the output closes the close handler
    runs to its end: it reports the sizes, removes the temporary folder and
    waits for the next backup. *)
Theorem empty_tree_no_progress :
  forall (folderPath outputZipPath tmpFolder : string) (w w1 : world) (z : zip),
    zipFolder folderPath outputZipPath tmpFolder w = (w1, Ok z) ->
    totalBytes z = 0%N ->
    bar z = None /\
    divisions z = [] /\
    (forall evs : list event,
       before_close evs ->
       exists w2,
         deliver evs z w1 = (w2, Ok z) /\
         fs w2 = fs w1 /\
         bar_updates (console w2) = bar_updates (console w1)) /\
    (forall (evs : list event) (zipSize : N),
       before_close evs ->
       tmpFolder = folderPath ->
       segments folderPath <> [] ->
       exists w3 c,
         deliver (evs ++ [EvClose zipSize]) z w1 = (w3, Ok z) /\
         bar_updates (console w3) = bar_updates (console w1) /\
         console w3 = (c ++ [LogZipped 0 zipSize; LogDeleting; LogDeleted;
                             LogWaiting])%list /\
         existsSync tmpFolder (fs w3) = false).
Proof.
  intros folderPath outputZipPath tmpFolder w w1 z Hz Htot.
  destruct (zipFolder_ok _ _ _ _ _ _ Hz) as (root1 & total & Hc & Hg & Hw1 & Hzeq).
  assert (Ht : total = 0%N) by (rewrite Hzeq in Htot; exact Htot).
  assert (Hb : bar z = None) by (rewrite Hzeq, Ht; reflexivity).
  split; [exact Hb |].
  split; [rewrite Hzeq; reflexivity |].
  split; [intros evs B; apply deliver_no_bar; assumption |].
  intros evs zipSize B Htmp Hne.
  destruct (deliver_no_bar evs z w1 Hb B) as (w2 & H2 & Hfs & Hus).
  assert (Ho : zOutput z = outputZipPath) by (rewrite Hzeq; reflexivity).
  assert (Hzt : zTmp z = folderPath) by (rewrite Hzeq; exact Htmp).
  assert (Hfs1 : fs w1 = root1) by (rewrite Hw1; reflexivity).
  set (w2' := {| fs := fst (write_at false (segments (zOutput z)) (flush_at zipSize) (fs w2));
                 console := console w2 |}).
  (* the output file holds [zipSize] bytes *)
  assert (Hstat : statSync (zOutput z) (fs w2')
                  = Ok {| isDirectory := false; size := zipSize |}).
  { unfold statSync, w2'. cbn [fs].
    pose proof (createWriteStream_ok _ _ _ Hc) as Hl.
    rewrite Hfs, Hfs1, Ho.
    apply (write_flush_size zipSize) in Hl.
    apply lookup_resolve in Hl. rewrite Hl. reflexivity. }
  (* the temporary folder is there and can be removed: it was just read
     throughout *)
  assert (Hres : exists T', resolve (segments (zTmp z)) (fs w2') = Ok T' /\
                            removable T' = true).
  { unfold w2'. cbn [fs]. rewrite Hfs, Hfs1, Hzt.
    unfold getFolderSize in Hg.
    destruct (resolve (segments folderPath) root1) as [T | e] eqn:RT;
      [| discriminate].
    apply (write_flush_removable zipSize _ _ _ T); [exact RT |].
    apply readable_removable.
    assert (D : directory_tree T = true)
      by (rewrite <- (getSize_ok_iff T 0), Hg; reflexivity).
    destruct T; try discriminate. exact D. }
  destruct Hres as (T' & Hres & Hrem).
  destruct (rmSync_existing (zTmp z) (fs w2') T' Hres Hrem) as [Hrm Habs].
  { rewrite Hzt. exact Hne. }
  pose proof (on_close_no_bar z w2' _ Hb Hstat Hrm) as Hclose.
  eexists _, (console w2).
  rewrite deliver_app, H2. cbn [deliver handle]. unfold bind, flush.
  fold w2'. rewrite Hclose. unfold ret.
  split; [reflexivity |]. cbn [fs console size].
  split; [| split].
  - rewrite bar_updates_app. simpl. rewrite app_nil_r. exact Hus.
  - rewrite Htot. reflexivity.
  - rewrite Htmp, <- Hzt. unfold existsSync. rewrite Habs. reflexivity.
Qed.

Lemma empty_tree_no_progress_witness :
  exists w1 z,
    zipFolder "/tmp/temp_backup_world" "/backups/empty.zip" "/tmp/temp_backup_world"
      (mkWorld empty_snapshot_root []) = (w1, Ok z) /\
    totalBytes z = 0%N /\
    bar z = None /\
    exists w3 c,
      deliver ([EvProgress 0; EvError ENOENT] ++ [EvClose 22]) z w1 = (w3, Ok z) /\
      bar_updates (console w3) = bar_updates (console w1) /\
      console w3 = (c ++ [LogZipped 0 22; LogDeleting; LogDeleted; LogWaiting])%list /\
      existsSync "/tmp/temp_backup_world" (fs w3) = false.
Proof.
  exists (fst (zipFolder "/tmp/temp_backup_world" "/backups/empty.zip"
                 "/tmp/temp_backup_world" (mkWorld empty_snapshot_root []))),
         {| zOutput := "/backups/empty.zip"; zTmp := "/tmp/temp_backup_world";
            totalBytes := 0; bar := None; lastPrintedProgress := 0;
            divisions := [] |}.
  split; [reflexivity |]. split; [reflexivity |].
  destruct (empty_tree_no_progress
              "/tmp/temp_backup_world" "/backups/empty.zip" "/tmp/temp_backup_world"
              (mkWorld empty_snapshot_root []) _ _ eq_refl eq_refl)
    as (Hb & _ & _ & H).
  split; [exact Hb |].
  apply (H [EvProgress 0; EvError ENOENT] 22%N eq_refl eq_refl).
  vm_compute. discriminate.
Defined.

(** ** The cycle *)

(** A complete cycle on the sample world: the archive reports its
    progress, the output closes, the temporary folder is removed. *)
Example cycle_success :
  let r := cycle sample_config "/tmp" sample_now
             [EvProgress 10; EvProgress 52; EvClose 20] (mkWorld sample_root []) in
  is_ok (snd r) = true /\
  existsSync "/tmp/temp_backup_world" (fs (fst r)) = false /\
  lookup ["backups"; "2025-03-07_09-05-03_world.zip"] (fs (fst r)) = Some (File 20).
Proof. repeat split. Qed.

(** C1, evaluated where the code departs from it.  First, the archive
    emits an error: the error handler prints it, the output never closes,
    and the temporary folder is still on disk when the events of the cycle
    are over.  Second, the source holds a link whose target is gone: the
    copy succeeds, the size scan of the copy is rejected, [zipFolder] ends
    before it registers a handler, and the temporary folder stays. *)
Theorem failed_archive_leaves_temporary_folder :
  (let r := cycle sample_config "/tmp" sample_now
              [EvProgress 10; EvError ENOSPC] (mkWorld sample_root []) in
   is_ok (snd r) = true /\
   In (LogException ENOSPC) (console (fst r)) /\
   ~ In LogDeleting (console (fst r)) /\
   existsSync "/tmp/temp_backup_world" (fs (fst r)) = true) /\
  (let r := cycle sample_config "/tmp" sample_now []
              (mkWorld (root_with linked_world) []) in
   snd r = Err ENOENT /\
   ~ In LogDeleting (console (fst r)) /\
   existsSync "/tmp/temp_backup_world" (fs (fst r)) = true).
Proof.
  split; cbv zeta.
  - split; [reflexivity |]. split; [vm_compute; tauto |].
    split; [| reflexivity].
    vm_compute. intros H. repeat (destruct H as [H | H]; [discriminate |]). exact H.
  - split; [reflexivity |].
    split; [| reflexivity].
    vm_compute. intros H. repeat (destruct H as [H | H]; [discriminate |]). exact H.
Qed.

(** ** Two sources with one basename *)

(** C10. [generateZipFilename] reads its argument only through its
    basename and the clock only down to the second: two source paths with
    the same basename, within the same second, get the same file name, and
    under the same destination folder the same output path; opening the
    output stream on that path truncates the archive that is there. *)
Theorem same_basename_same_archive :
  forall (now1 now2 : Date) (folderPath1 folderPath2 : string),
    same_second now1 now2 ->
    basename folderPath1 = basename folderPath2 ->
    generateZipFilename now1 folderPath1 = generateZipFilename now2 folderPath2 /\
    (forall zipFolderName : string,
       path_join zipFolderName (generateZipFilename now1 folderPath1)
       = path_join zipFolderName (generateZipFilename now2 folderPath2)) /\
    (forall (zipFolderName : string) (root : node) (first : N),
       lookup (segments (path_join zipFolderName (generateZipFilename now1 folderPath1)))
         root = Some (File first) ->
       let zipPath := path_join zipFolderName (generateZipFilename now2 folderPath2) in
       snd (createWriteStream zipPath root) = Ok tt /\
       lookup (segments zipPath) (fst (createWriteStream zipPath root)) = Some (File 0)).
Proof.
  intros now1 now2 p1 p2 Hsame Hbase.
  assert (E : generateZipFilename now1 p1 = generateZipFilename now2 p2).
  { unfold generateZipFilename.
    rewrite (timestamp_same_second now1 now2 Hsame), Hbase. reflexivity. }
  split; [exact E |]. split; [intro; now rewrite E |].
  intros zipFolderName root first L. rewrite E in L. cbv zeta.
  unfold createWriteStream.
  destruct (write_at_reaches false open_at
              (segments (path_join zipFolderName (generateZipFilename now2 p2))) root)
    as [Hs Hl].
  - apply (olookup_some_reaches false _ (Some root) (File first)). exact L.
  - intros Hnil. rewrite Hnil in L. unfold lookup in L. simpl in L.
    inversion L. discriminate.
  - rewrite Hs, Hl, L. auto.
Qed.

Lemma same_basename_same_archive_witness :
  same_second sample_now (mkDate 2025 2 7 9 5 3 870) /\
  basename "/srv/world" = basename "/home/world/" /\
  generateZipFilename sample_now "/srv/world"
    = generateZipFilename (mkDate 2025 2 7 9 5 3 870) "/home/world/" /\
  (let r1 := cycle sample_config "/tmp" sample_now [EvClose 20]
               (mkWorld two_servers_root []) in
   let r2 := cycle {| folderName := "/home/world/"; zipFolderName := "/backups" |}
               "/tmp" (mkDate 2025 2 7 9 5 3 870) [EvClose 5] (fst r1) in
   readdir_names ["backups"] (fs (fst r1)) = ["2025-03-07_09-05-03_world.zip"] /\
   lookup ["backups"; "2025-03-07_09-05-03_world.zip"] (fs (fst r1)) = Some (File 20) /\
   readdir_names ["backups"] (fs (fst r2)) = ["2025-03-07_09-05-03_world.zip"] /\
   lookup ["backups"; "2025-03-07_09-05-03_world.zip"] (fs (fst r2)) = Some (File 5)).
Proof.
  assert (S : same_second sample_now (mkDate 2025 2 7 9 5 3 870)) by (repeat split).
  assert (B : basename "/srv/world" = basename "/home/world/") by reflexivity.
  split; [exact S | split; [exact B |]].
  split; [exact (proj1 (same_basename_same_archive _ _ _ _ S B)) |].
  repeat split.
Defined.

(** ** The scheduler *)

(** The timer keeps its own time: firing number [fires] happens at
    [fires * INTERVAL] and starts cycle number [fires], whatever the
    earlier cycles are doing. *)
Lemma scheduler_clock (dur : nat -> Z) (fires : nat) :
  clock (scheduler dur fires) = Z.of_nat fires * INTERVAL /\
  launched (scheduler dur fires) = S fires.
Proof.
  induction fires as [| k [IHc IHl]].
  - split; reflexivity.
  - cbn [scheduler]. unfold timer_fire, start_cycle, settle. cbn [clock launched].
    rewrite IHc, IHl. split; [| reflexivity].
    rewrite Nat2Z.inj_succ. unfold INTERVAL. lia.
Qed.

(** C2, as stated, fails: an archive that takes one millisecond more than
    the hour is still in flight when the timer fires, and the timer starts
    the next cycle all the same. *)
Lemma slow_cycle_overlaps_next :
  in_flight (scheduler (fun _ => INTERVAL + 1) 1)
    = [(0%nat, 3600001); (1%nat, 7200001)] /\
  ~ (forall (dur : nat -> Z) (fires : nat),
       (forall k, 0 < dur k) ->
       (List.length (in_flight (scheduler dur fires)) <= 1)%nat).
Proof.
  split; [reflexivity |].
  intro H. specialize (H (fun _ => INTERVAL + 1) 1%nat).
  assert (P : forall k : nat, 0 < (fun _ : nat => INTERVAL + 1) k)
    by (intro; unfold INTERVAL; lia).
  specialize (H P). vm_compute in H. lia.
Qed.

(** C2, amended.  The first cycle starts at once and the timer starts
    cycle [k] at [k] hours on its own clock, whether or not the cycles
    before it have finished.  When every cycle lasts less than the hour,
    each cycle starts strictly after the previous one is over and is the
    only one in flight. *)
Theorem scheduler_fixed_interval :
  forall dur : nat -> Z,
    (forall fires : nat,
       clock (scheduler dur fires) = Z.of_nat fires * INTERVAL /\
       launched (scheduler dur fires) = S fires) /\
    ((forall k : nat, 0 <= dur k < INTERVAL) ->
     forall fires : nat,
       Z.of_nat fires * INTERVAL + dur fires < Z.of_nat (S fires) * INTERVAL /\
       in_flight (scheduler dur fires)
         = [(fires, Z.of_nat fires * INTERVAL + dur fires)]).
Proof.
  intro dur. split; [apply scheduler_clock |].
  intros Hdur fires. split.
  - specialize (Hdur fires). rewrite Nat2Z.inj_succ. unfold INTERVAL in *. lia.
  - induction fires as [| k IH].
    + reflexivity.
    + destruct (scheduler_clock dur k) as [Hc Hl].
      cbn [scheduler]. unfold timer_fire, start_cycle, settle.
      cbn [clock launched in_flight]. rewrite IH, Hc, Hl.
      cbn [filter snd].
      assert (F : (Z.of_nat k * INTERVAL + INTERVAL
                     <? Z.of_nat k * INTERVAL + dur k) = false).
      { apply Z.ltb_ge. specialize (Hdur k). lia. }
      rewrite F. cbn [app]. rewrite Nat2Z.inj_succ.
      do 2 f_equal. unfold INTERVAL. lia.
Qed.

Lemma scheduler_fixed_interval_witness :
  (forall k : nat, 0 <= (fun _ : nat => 5000) k < INTERVAL) /\
  in_flight (scheduler (fun _ => 5000) 3) = [(3%nat, 10805000)].
Proof.
  assert (H : forall k : nat, 0 <= (fun _ : nat => 5000) k < INTERVAL)
    by (intro; unfold INTERVAL; lia).
  split; [exact H |].
  exact (proj2 (proj2 (scheduler_fixed_interval (fun _ => 5000)) H 3%nat)).
Defined.

(** * Part IV: further properties of the program *)

(** ** Writes leave other paths alone *)

Lemma upd_frame (mk : bool) (f : option node -> option node * result unit)
    (p : list string) :
  forall q cur, disjoint p q = true ->
    olookup q (fst (upd mk p f cur)) = olookup q cur.
Proof.
  induction p as [| c p IH]; intros q cur D.
  - discriminate.
  - destruct q as [| d q].
    { unfold disjoint in D. simpl in D. discriminate. }
    assert (Dt : String.eqb c d = true -> disjoint p q = true).
    { intro E. unfold disjoint in *. simpl in D.
      rewrite E in D. rewrite (String.eqb_sym d c), E in D. exact D. }
    destruct cur as [[sz | es | | ] |]; try reflexivity.
    + cbn [upd]. destruct (upd mk p f (alookup c es)) as [r st] eqn:U.
      cbn [fst]. rewrite !olookup_cons.
      destruct (String.eqb_spec c d) as [<- | Hne].
      * rewrite alookup_aset_same.
        specialize (IH q (alookup c es) (Dt eq_refl)). rewrite U in IH. exact IH.
      * rewrite (alookup_aset_other c d r es Hne). reflexivity.
    + cbn [upd]. destruct mk; [| reflexivity].
      destruct (upd true p f None) as [r st] eqn:U. cbn [fst].
      rewrite olookup_cons.
      destruct (String.eqb_spec c d) as [<- | Hne].
      * rewrite alookup_aset_same.
        specialize (IH q None (Dt eq_refl)). rewrite U in IH. exact IH.
      * rewrite (alookup_aset_other c d r [] Hne). reflexivity.
Qed.

Lemma write_at_frame (mk : bool) (f : option node -> option node * result unit)
    (p q : list string) (root : node) :
  disjoint p q = true ->
  lookup q (fst (write_at mk p f root)) = lookup q root.
Proof.
  intro D. unfold write_at.
  pose proof (upd_frame mk f p q (Some root) D) as H.
  destruct (upd mk p f (Some root)) as [[r |] st]; [exact H | reflexivity].
Qed.

Lemma same_outside_refl (ps : list (list string)) (a : node) : same_outside ps a a.
Proof. intros q _. reflexivity. Qed.

Lemma same_outside_trans (ps : list (list string)) (a b c : node) :
  same_outside ps a b -> same_outside ps b c -> same_outside ps a c.
Proof. intros H1 H2 q Hq. rewrite (H1 q Hq). apply H2. exact Hq. Qed.

Lemma write_at_same_outside (ps : list (list string)) (mk : bool)
    (f : option node -> option node * result unit) (p : list string) (root : node) :
  In p ps -> same_outside ps (fst (write_at mk p f root)) root.
Proof. intros Hin q Hq. apply write_at_frame. apply Hq. exact Hin. Qed.

Lemma rmSync_fst (path : string) (recursive force : bool) (root : node) :
  fst (rmSync path recursive force root)
  = fst (write_at false (segments path) (rm_at recursive force) root).
Proof.
  unfold rmSync.
  destruct (write_at false (segments path) (rm_at recursive force) root)
    as [root' [[] | []]]; reflexivity.
Qed.

(** ** The copy of a tree *)

Lemma adelete_fresh (c : string) (es : list (string * node)) :
  alookup c es = None -> adelete c es = es.
Proof.
  intro H. pose proof (aset_alookup_id c es) as A. rewrite H in A. exact A.
Qed.

Lemma ainsert_fresh (c : string) (v : node) (es : list (string * node)) :
  alookup c es = None -> ainsert c v es = (es ++ [(c, v)])%list.
Proof.
  induction es as [| [k w] es IH]; simpl; intro H; [reflexivity |].
  destruct (String.eqb k c); [discriminate |]. now rewrite IH.
Qed.

Lemma alookup_app (k : string) (a b : list (string * node)) :
  alookup k (a ++ b) = match alookup k a with Some v => Some v | None => alookup k b end.
Proof.
  induction a as [| [c w] a IH]; simpl; [reflexivity |].
  destruct (String.eqb c k); [reflexivity | exact IH].
Qed.

Lemma distinct_names_cons (c : string) (v : node) (es : list (string * node)) :
  distinct_names (map fst ((c, v) :: es)) = true ->
  alookup c es = None /\ distinct_names (map fst es) = true.
Proof.
  simpl. intro H. apply andb_prop in H. destruct H as [H1 H2].
  split; [| exact H2].
  clear H2. apply negb_true_iff in H1.
  induction es as [| [k w] es IH]; [reflexivity |].
  simpl in *. apply orb_false_iff in H1. destruct H1 as [Hk Hr].
  rewrite String.eqb_sym, Hk. auto.
Qed.

(** Copying entries with fresh, distinct names appends them in order. *)
Lemma copyDir_fresh (es : list (string * node)) :
  forall ds,
    Forall (fun e => cp_node (snd e) None = (Some (snd e), Ok tt)) es ->
    distinct_names (map fst es) = true ->
    (forall e, In e es -> alookup (fst e) ds = None) ->
    copyDir cp_node es ds = ((ds ++ es)%list, Ok tt).
Proof.
  induction es as [| [name child] rest IH]; intros ds Hcp Hd Hfresh.
  - simpl. now rewrite app_nil_r.
  - inversion Hcp as [| ? ? Hc Hrest]; subst. simpl in Hc.
    destruct (distinct_names_cons _ _ _ Hd) as [Hn Hd'].
    pose proof (Hfresh (name, child) (or_introl eq_refl)) as Hf. cbn [fst] in Hf.
    cbn [copyDir]. rewrite Hf, Hc.
    cbn [aset]. rewrite (ainsert_fresh name child ds Hf).
    rewrite (IH (ds ++ [(name, child)])%list Hrest Hd').
    + now rewrite <- app_assoc.
    + intros [k v] Hin. cbn [fst]. rewrite alookup_app.
      pose proof (Hfresh (k, v) (or_intror Hin)) as Hk. cbn [fst] in Hk.
      rewrite Hk. simpl.
      destruct (String.eqb_spec name k) as [<- | _]; [| reflexivity].
      (* [name] would occur in [rest] *)
      exfalso. clear - Hn Hin. induction rest as [| [k' v'] rest IH]; [contradiction |].
      simpl in Hn. destruct (String.eqb_spec k' name) as [-> | Hne]; [discriminate |].
      destruct Hin as [E | Hin]; [inversion E; congruence | auto].
Qed.

(** [cpSync] onto a destination that is not there reproduces a readable,
    well-named tree. *)
Lemma cp_node_identity (n : node) :
  readable n = true -> well_named n = true -> cp_node n None = (Some n, Ok tt).
Proof.
  induction n as [sz | es IH | | ] using node_induction; intros R W;
    try discriminate; [reflexivity |].
  simpl in R, W. apply andb_prop in W. destruct W as [Wd Wf].
  cbn [cp_node]. rewrite (copyDir_fresh es []); [reflexivity | | exact Wd | reflexivity].
  rewrite forallb_forall in R, Wf. rewrite Forall_forall in IH |- *.
  intros e He. apply IH; auto.
Qed.

(** Entries of the destination that the source does not name survive the
    copy, whether it ends well or not. *)
Lemma copyDir_keeps (name : string) (es : list (string * node)) :
  forall ds, alookup name es = None ->
    alookup name (fst (copyDir cp_node es ds)) = alookup name ds.
Proof.
  induction es as [| [k child] rest IH]; intros ds H; [reflexivity |].
  simpl in H. destruct (String.eqb_spec k name) as [-> | Hne]; [discriminate |].
  cbn [copyDir]. destruct (cp_node child (alookup k ds)) as [r [[] | e]].
  - rewrite (IH _ H). apply alookup_aset_other. exact Hne.
  - cbn [fst]. apply alookup_aset_other. exact Hne.
Qed.

Lemma upd_mkdir_file (p : list string) :
  forall cur sz, oresolve p cur = Ok (File sz) ->
    upd true p mkdir_at cur = (cur, Err EEXIST).
Proof.
  induction p as [| c p IH]; intros cur sz H.
  - destruct cur as [n |]; [| discriminate]. simpl in H. inversion H. reflexivity.
  - destruct cur as [[sz0 | es0 | | ] |]; try discriminate.
    rewrite oresolve_cons in H. cbn [upd].
    rewrite (IH _ _ H), aset_alookup_id. reflexivity.
Qed.

Lemma ainsert_ainsert (c : string) (v v1 : node) (es : list (string * node)) :
  alookup c es = Some v -> ainsert c v (ainsert c v1 es) = es.
Proof.
  induction es as [| [k w] es IH]; simpl; intro H; [discriminate |].
  destruct (String.eqb k c) eqn:E; simpl; rewrite E.
  - inversion H. reflexivity.
  - now rewrite IH.
Qed.

Lemma forallb_adelete (f : node -> bool) (c : string) (es : list (string * node)) :
  forallb (fun e => f (snd e)) es = true ->
  forallb (fun e => f (snd e)) (adelete c es) = true.
Proof.
  intro H. unfold adelete. induction es as [| [k w] es IH]; simpl in *; [reflexivity |].
  apply andb_prop in H. destruct H as [Hw Hes].
  destruct (String.eqb k c); simpl; [auto |]. now rewrite Hw, IH.
Qed.

(** A copy holds no closed directory, unless the destination held one
    already: of a directory that cannot be read [cpSync] creates only the
    empty shell. *)
Lemma cp_node_removable (s : node) :
  forall d,
    match d with Some x => removable x = true | None => True end ->
    match fst (cp_node s d) with Some x => removable x = true | None => True end.
Proof.
  induction s as [sz | es IH | | ] using node_induction; intros d Hd.
  - destruct d as [[sz' | es' | | ] |]; simpl; auto.
  - assert (C : forall ds, forallb (fun e => removable (snd e)) ds = true ->
                  forallb (fun e => removable (snd e)) (fst (copyDir cp_node es ds))
                  = true).
    { induction es as [| [name child] rest IHrest]; intros ds Hds; [exact Hds |].
      inversion IH as [| ? ? IHc IHr]; subst. cbn [snd] in IHc.
      cbn [copyDir].
      assert (Ha : match alookup name ds with
                   | Some x => removable x = true | None => True end).
      { destruct (alookup name ds) as [x |] eqn:A; [| exact I].
        apply (forallb_alookup removable name x ds Hds A). }
      specialize (IHc (alookup name ds) Ha).
      destruct (cp_node child (alookup name ds)) as [r st]. cbn [fst] in IHc.
      assert (Hds' : forallb (fun e => removable (snd e)) (aset name r ds) = true).
      { destruct r as [v |]; cbn [aset];
          [apply forallb_ainsert | apply forallb_adelete]; assumption. }
      destruct st as [[] | e]; [apply (IHrest IHr); exact Hds' | exact Hds']. }
    destruct d as [[sz' | ds | | ] |]; cbn [cp_node]; try exact Hd.
    + specialize (C ds Hd). destruct (copyDir cp_node es ds). exact C.
    + specialize (C [] eq_refl). destruct (copyDir cp_node es []). exact C.
  - destruct d as [[sz' | es' | | ] |]; simpl; auto.
  - destruct d as [[sz' | es' | | ] |]; simpl; auto.
Qed.

(** Removing what was just written at a path that was not there gives the
    disk back, when the folder above the path was there and what was
    written holds no closed directory. *)
Lemma upd_write_then_rm (f : option node -> option node * result unit)
    (p : list string) :
  p <> [] ->
  (exists x, fst (f None) = Some x /\ removable x = true) ->
  forall cur, olookup p cur = None -> reaches false p cur = true ->
    fst (upd false p (rm_at true true) (fst (upd true p f cur))) = cur.
Proof.
  intros Hne [x [Hx Rx]]. induction p as [| c p IH]; [contradiction |].
  intros cur L R.
  destruct cur as [[sz | es | | ] |]; try discriminate.
  rewrite olookup_cons in L. simpl in R.
  destruct p as [| d p'].
  - (* the last component *)
    simpl in L. destruct (alookup c es) as [n |] eqn:A; [discriminate |].
    cbn [upd]. rewrite A. destruct (f None) as [r st]. simpl in Hx. subst r.
    cbn [fst upd].
    rewrite alookup_aset_same.
    assert (E : rm_at true true (Some x) = (None, Ok tt))
      by (rewrite rm_at_some; apply rm_node_removable; exact Rx).
    rewrite E. cbn [fst aset].
    rewrite ainsert_fresh by exact A.
    unfold adelete. rewrite filter_app. fold (adelete c es).
    rewrite (adelete_fresh c es A). simpl. rewrite String.eqb_refl. simpl.
    now rewrite app_nil_r.
  - destruct (alookup c es) as [child |] eqn:A; [| discriminate].
    assert (Hne' : d :: p' <> []) by discriminate.
    specialize (IH Hne' (Some child) L R).
    destruct (upd_keeps true f (d :: p') child) as [y Hy]; [discriminate |].
    remember (d :: p') as q eqn:Hq. clear Hq.
    cbn [upd]. rewrite A.
    destruct (upd true q f (Some child)) as [r1 st1]. cbn [fst] in *. subst r1.
    cbn [upd]. rewrite alookup_aset_same.
    destruct (upd false q (rm_at true true) (Some y)) as [r2 st2].
    cbn [fst] in *. subst r2. cbn [aset].
    now rewrite (ainsert_ainsert c child y es A).
Qed.

Lemma write_at_fst (mk : bool) (f : option node -> option node * result unit)
    (p : list string) (root : node) :
  p <> [] ->
  Some (fst (write_at mk p f root)) = fst (upd mk p f (Some root)).
Proof.
  intro Hne. unfold write_at.
  destruct (upd_keeps mk f p root) as [n' Hn']; [contradiction |].
  destruct (upd mk p f (Some root)) as [r st]. simpl in *. subst r. reflexivity.
Qed.

(** X1. Copying a readable source directory whose directories list no name
    twice to a temporary path that is not there succeeds, puts an identical
    tree at the temporary path, and the size scan of the copy returns what
    the size scan of the source returns. *)
Theorem copy_preserves_tree_and_size :
  forall (folderPath tmpFolderPath : string) (w : world) (T : node),
    resolve (segments folderPath) (fs w) = Ok T ->
    directory_tree T = true ->
    well_named T = true ->
    lookup (segments tmpFolderPath) (fs w) = None ->
    reaches true (segments tmpFolderPath) (Some (fs w)) = true ->
    is_prefix (segments folderPath) (segments tmpFolderPath) = false ->
    snd (copyFolder folderPath tmpFolderPath w) = Ok tt /\
    lookup (segments tmpFolderPath) (fs (fst (copyFolder folderPath tmpFolderPath w)))
      = Some T /\
    getFolderSize tmpFolderPath (fs (fst (copyFolder folderPath tmpFolderPath w)))
      = getFolderSize folderPath (fs w).
Proof.
  intros src tmp w T Hsrc HD HW L R Hpre.
  destruct T as [sz | es | | ]; try discriminate.
  assert (Hcp : cp_node (Dir es) (lookup (segments tmp) (fs w)) = (Some (Dir es), Ok tt)).
  { rewrite L. apply cp_node_identity; assumption. }
  rewrite copyFolder_unfold, (mkdirSync_existing src (fs w) es Hsrc).
  unfold cpSync. rewrite Hsrc, Hpre.
  destruct (write_at_reaches true (cp_node (Dir es)) (segments tmp) (fs w) R)
    as [Hs Hl].
  { intros Hnil. rewrite Hnil in L. discriminate. }
  rewrite Hcp in Hs, Hl. cbn [fst snd] in Hs, Hl.
  destruct (write_at true (segments tmp) (cp_node (Dir es)) (fs w)) as [root2 st].
  cbn [fst snd] in *. subst st. cbn [fst snd fs].
  split; [reflexivity |]. split; [exact Hl |].
  unfold getFolderSize. apply lookup_resolve in Hl. rewrite Hl, Hsrc. reflexivity.
Qed.

Lemma copy_preserves_tree_and_size_witness :
  snd (copyFolder "/srv/world" "/tmp/temp_backup_world" (mkWorld sample_root []))
    = Ok tt /\
  lookup (segments "/tmp/temp_backup_world")
    (fs (fst (copyFolder "/srv/world" "/tmp/temp_backup_world"
                (mkWorld sample_root [])))) = Some sample_world /\
  getFolderSize "/tmp/temp_backup_world"
    (fs (fst (copyFolder "/srv/world" "/tmp/temp_backup_world"
                (mkWorld sample_root [])))) = Ok 52%N.
Proof.
  destruct (copy_preserves_tree_and_size "/srv/world" "/tmp/temp_backup_world"
              (mkWorld sample_root []) sample_world
              eq_refl eq_refl eq_refl eq_refl eq_refl eq_refl) as (A & B & C).
  split; [exact A | split; [exact B |]].
  rewrite C. reflexivity.
Defined.

(** X2. A temporary folder left over from an earlier cycle is merged
    into, not replaced: an entry of the leftover folder whose name the
    source does not have is still there after [copyFolder], whether the copy
    ends well or raises. *)
Theorem copy_merges_into_leftover :
  forall (folderPath tmpFolderPath : string) (w : world)
         (es ds : list (string * node)) (name : string) (stale : node),
    resolve (segments folderPath) (fs w) = Ok (Dir es) ->
    lookup (segments tmpFolderPath) (fs w) = Some (Dir ds) ->
    is_prefix (segments folderPath) (segments tmpFolderPath) = false ->
    alookup name es = None ->
    alookup name ds = Some stale ->
    exists ds',
      lookup (segments tmpFolderPath) (fs (fst (copyFolder folderPath tmpFolderPath w)))
        = Some (Dir ds') /\
      alookup name ds' = Some stale.
Proof.
  intros src tmp w es ds name stale Hsrc L Hpre Hes Hds.
  rewrite copyFolder_unfold, (mkdirSync_existing src (fs w) es Hsrc).
  unfold cpSync. rewrite Hsrc, Hpre.
  destruct (write_at_reaches true (cp_node (Dir es)) (segments tmp) (fs w))
    as [_ Hl].
  { apply (olookup_some_reaches true _ (Some (fs w)) (Dir ds)). exact L. }
  { intros _. apply cp_node_some. }
  pose proof (copyDir_keeps name es ds Hes) as K.
  destruct (copyDir cp_node es ds) as [ds' st'] eqn:C. cbn [fst] in K.
  assert (Hcp : cp_node (Dir es) (Some (Dir ds)) = (Some (Dir ds'), st'))
    by (cbn [cp_node]; now rewrite C).
  rewrite L, Hcp in Hl. cbn [fst] in Hl.
  exists ds'. split; [| now rewrite K].
  destruct (write_at true (segments tmp) (cp_node (Dir es)) (fs w))
    as [root2 [[] | e]]; exact Hl.
Qed.

Lemma copy_merges_into_leftover_witness :
  exists ds',
    lookup (segments "/tmp/temp_backup_world")
      (fs (fst (copyFolder "/srv/world" "/tmp/temp_backup_world"
                  (mkWorld leftover_root []))))
      = Some (Dir ds') /\
    alookup "old.dat" ds' = Some (File 99).
Proof.
  exact (copy_merges_into_leftover "/srv/world" "/tmp/temp_backup_world"
           (mkWorld leftover_root [])
           [("level.dat", File 10);
            ("region", Dir [("r.0.0.mca", File 30); ("r.0.1.mca", File 12)]);
            ("playerdata", Dir [])]
           [("old.dat", File 99); ("level.dat", File 1)]
           "old.dat" (File 99)
           eq_refl eq_refl eq_refl eq_refl eq_refl).
Defined.

(** X3. [copyFolder] refuses two sources before anything is copied and
    leaves the disk as it was: a source that is a file (EEXIST, from the
    [mkdirSync] on the source) and a source directory that contains the
    temporary path (EINVAL, from [cpSync]). *)
Theorem copyFolder_rejects_file_and_enclosing_source :
  forall (folderPath tmpFolderPath : string) (w : world),
    (forall sz : N,
       resolve (segments folderPath) (fs w) = Ok (File sz) ->
       copyFolder folderPath tmpFolderPath w
       = ({| fs := fs w; console := console w ++ [LogCopying] |}, Err EEXIST)) /\
    (forall es : list (string * node),
       resolve (segments folderPath) (fs w) = Ok (Dir es) ->
       is_prefix (segments folderPath) (segments tmpFolderPath) = true ->
       copyFolder folderPath tmpFolderPath w
       = ({| fs := fs w; console := console w ++ [LogCopying] |}, Err EINVAL)).
Proof.
  intros src tmp w. split.
  - intros sz H. rewrite copyFolder_unfold. unfold mkdirSync, write_at.
    now rewrite (upd_mkdir_file _ (Some (fs w)) sz H).
  - intros es H Hpre.
    rewrite copyFolder_unfold, (mkdirSync_existing src (fs w) es H).
    unfold cpSync. now rewrite H, Hpre.
Qed.

Lemma copyFolder_rejects_file_and_enclosing_source_witness :
  snd (copyFolder "/srv/world/level.dat" "/tmp/temp_backup_world"
         (mkWorld sample_root [])) = Err EEXIST /\
  snd (copyFolder "/" "/tmp/temp_backup_world" (mkWorld sample_root [])) = Err EINVAL /\
  fs (fst (copyFolder "/" "/tmp/temp_backup_world" (mkWorld sample_root [])))
    = sample_root.
Proof.
  destruct (copyFolder_rejects_file_and_enclosing_source
              "/srv/world/level.dat" "/tmp/temp_backup_world" (mkWorld sample_root []))
    as [A _].
  destruct (copyFolder_rejects_file_and_enclosing_source
              "/" "/tmp/temp_backup_world" (mkWorld sample_root []))
    as [_ B].
  rewrite (A 10%N eq_refl), (B _ eq_refl eq_refl). repeat split.
Defined.

(** X4. [delFolder] undoes [copyFolder]: when the source is a directory,
    the temporary path is not there, the folder above it is, and the
    temporary path is not inside the source, the disk after [copyFolder]
    followed by [delFolder] is the disk before, also when the copy raised
    half-way. *)
Theorem copy_then_delete_restores_disk :
  forall (folderPath tmpFolderPath : string) (w : world) (es : list (string * node)),
    resolve (segments folderPath) (fs w) = Ok (Dir es) ->
    lookup (segments tmpFolderPath) (fs w) = None ->
    reaches false (segments tmpFolderPath) (Some (fs w)) = true ->
    is_prefix (segments folderPath) (segments tmpFolderPath) = false ->
    fs (fst (delFolder tmpFolderPath (fst (copyFolder folderPath tmpFolderPath w))))
    = fs w.
Proof.
  intros src tmp w es Hsrc L R Hpre.
  assert (Hne : segments tmp <> []).
  { intro Hnil. rewrite Hnil in L. discriminate. }
  assert (Hfs : fs (fst (copyFolder src tmp w))
                = fst (write_at true (segments tmp) (cp_node (Dir es)) (fs w))).
  { rewrite copyFolder_unfold, (mkdirSync_existing src (fs w) es Hsrc).
    unfold cpSync. rewrite Hsrc, Hpre.
    destruct (write_at true (segments tmp) (cp_node (Dir es)) (fs w))
      as [root2 [[] | e]]; reflexivity. }
  rewrite delFolder_unfold, Hfs.
  assert (E : fst (rmSync tmp true true
                     (fst (write_at true (segments tmp) (cp_node (Dir es)) (fs w))))
              = fs w).
  { rewrite rmSync_fst.
    assert (S : forall a b : node, Some a = Some b -> a = b) by (intros; congruence).
    apply S. rewrite (write_at_fst false _ _ _ Hne).
    rewrite (write_at_fst true _ _ _ Hne).
    apply upd_write_then_rm; try assumption.
    pose proof (cp_node_removable (Dir es) None I) as Rc.
    cbn [cp_node] in *. destruct (copyDir cp_node es []) as [ds' st'].
    eexists. split; [reflexivity | exact Rc]. }
  destruct (rmSync tmp true true _) as [root' [[] | e]]; exact E.
Qed.

Lemma copy_then_delete_restores_disk_witness :
  fs (fst (delFolder "/tmp/temp_backup_world"
             (fst (copyFolder "/srv/world" "/tmp/temp_backup_world"
                     (mkWorld (root_with locked_world) [])))))
  = root_with locked_world.
Proof.
  exact (copy_then_delete_restores_disk "/srv/world" "/tmp/temp_backup_world"
           (mkWorld (root_with locked_world) []) _ eq_refl eq_refl eq_refl eq_refl).
Defined.

(** ** What a cycle writes *)

Lemma copyFolder_same_outside (ps : list (list string))
    (folderPath tmpFolderPath : string) (w : world) (es : list (string * node)) :
  resolve (segments folderPath) (fs w) = Ok (Dir es) ->
  In (segments tmpFolderPath) ps ->
  same_outside ps (fs (fst (copyFolder folderPath tmpFolderPath w))) (fs w).
Proof.
  intros Hsrc Hin.
  rewrite copyFolder_unfold, (mkdirSync_existing _ _ es Hsrc).
  unfold cpSync. rewrite Hsrc.
  destruct (is_prefix (segments folderPath) (segments tmpFolderPath)).
  - apply same_outside_refl.
  - pose proof (write_at_same_outside ps true (cp_node (Dir es))
                  (segments tmpFolderPath) (fs w) Hin) as H.
    destruct (write_at true (segments tmpFolderPath) (cp_node (Dir es)) (fs w))
      as [root2 [[] | e]]; exact H.
Qed.

Lemma zipFolder_same_outside (ps : list (list string))
    (folderPath outputZipPath tmpFolder : string) (w : world) :
  In (segments outputZipPath) ps ->
  same_outside ps (fs (fst (zipFolder folderPath outputZipPath tmpFolder w))) (fs w) /\
  (forall z, snd (zipFolder folderPath outputZipPath tmpFolder w) = Ok z ->
             zOutput z = outputZipPath /\ zTmp z = tmpFolder).
Proof.
  intro Hin.
  pose proof (write_at_same_outside ps false open_at (segments outputZipPath)
                (fs w) Hin) as H.
  unfold zipFolder, bind, lift_fs, log, read_fs, ret, createWriteStream.
  destruct (write_at false (segments outputZipPath) open_at (fs w))
    as [root1 [[] | e]]; cbn [fst snd fs] in *.
  - destruct (getFolderSize folderPath root1) as [t | e]; cbn [fst snd fs].
    + split; [exact H |]. intros z Hz. inversion Hz. auto.
    + split; [exact H | discriminate].
  - split; [exact H | discriminate].
Qed.

Lemma handle_same_outside (ps : list (list string)) (ev : event) (z : zip) (w : world) :
  In (segments (zOutput z)) ps ->
  In (segments (zTmp z)) ps ->
  same_outside ps (fs (fst (handle ev z w))) (fs w) /\
  (forall z', snd (handle ev z w) = Ok z' ->
              zOutput z' = zOutput z /\ zTmp z' = zTmp z).
Proof.
  intros Ho Ht. destruct ev as [n | err | zipSize]; cbn [handle].
  - destruct (on_progress_step n z w) as (w' & z' & H & Hfs & _).
    rewrite H. cbn [fst snd]. rewrite Hfs. split; [apply same_outside_refl |].
    intros z'' E. inversion E; subst z''. clear E.
    unfold on_progress in H. destruct (bar z) as [b |].
    + destruct (Qle_bool _ _) in H; inversion H; auto.
    + inversion H. auto.
  - unfold on_error, bind, log, ret. cbn [fst snd fs].
    split; [apply same_outside_refl |]. intros z' E. inversion E. auto.
  - set (w1 := {| fs := fst (write_at false (segments (zOutput z)) (flush_at zipSize) (fs w));
                  console := console w |}).
    change ((flush (zOutput z) zipSize ;; on_close z) w) with (on_close z w1).
    assert (H1 : same_outside ps (fs w1) (fs w))
      by (apply write_at_same_outside; exact Ho).
    rewrite on_close_unfold.
    destruct (statSync (zOutput z) (fs w1)) as [st | e]; cbn [fst snd fs].
    + pose proof (rmSync_fst (zTmp z) true true (fs w1)) as Hr.
      assert (H2 : same_outside ps (fst (rmSync (zTmp z) true true (fs w1))) (fs w1))
        by (rewrite Hr; apply write_at_same_outside; exact Ht).
      destruct (rmSync (zTmp z) true true (fs w1)) as [root' [[] | e]];
        cbn [fst snd fs] in *.
      * split; [apply (same_outside_trans ps _ (fs w1)); assumption |].
        intros z' E. inversion E. unfold bar_full. destruct (bar z); auto.
      * split; [apply (same_outside_trans ps _ (fs w1)); assumption | discriminate].
    + split; [exact H1 | discriminate].
Qed.

Lemma deliver_same_outside (ps : list (list string)) (evs : list event) :
  forall z w,
    In (segments (zOutput z)) ps ->
    In (segments (zTmp z)) ps ->
    same_outside ps (fs (fst (deliver evs z w))) (fs w).
Proof.
  induction evs as [| ev evs IH]; intros z w Ho Ht.
  - apply same_outside_refl.
  - cbn [deliver]. unfold bind.
    destruct (handle_same_outside ps ev z w Ho Ht) as [H1 H2].
    destruct (handle ev z w) as [w1 [z1 | e]]; cbn [fst snd] in *.
    + destruct (H2 z1 eq_refl) as [Eo Et].
      apply (same_outside_trans ps _ (fs w1)); [| exact H1].
      apply IH; congruence.
    + exact H1.
Qed.

(** X5. A cycle writes at the temporary folder and at the output file and
    nowhere else: when the source is a directory that exists, every path
    that neither leads to nor lies under the temporary folder or the output
    file holds after the cycle what it held before, whatever events the
    archive emits and whether the cycle ends well or not.  In particular a
    source folder that is apart from both is left as it was. *)
Theorem cycle_writes_only_temp_and_output :
  forall (cfg : Config) (tmpdir : string) (now : Date) (evs : list event)
         (w : world) (es : list (string * node)) (q : list string),
    resolve (segments (folderName cfg)) (fs w) = Ok (Dir es) ->
    disjoint (segments (tmp_path tmpdir)) q = true ->
    disjoint (segments (zip_path cfg now)) q = true ->
    lookup q (fs (fst (cycle cfg tmpdir now evs w))) = lookup q (fs w).
Proof.
  intros cfg tmpdir now evs w es q Hsrc Dt Do.
  set (ps := [segments (tmp_path tmpdir); segments (zip_path cfg now)]).
  assert (Hq : forall p, In p ps -> disjoint p q = true).
  { intros p [<- | [<- | []]]; assumption. }
  assert (It : In (segments (tmp_path tmpdir)) ps) by (left; reflexivity).
  assert (Io : In (segments (zip_path cfg now)) ps) by (right; left; reflexivity).
  enough (H : same_outside ps (fs (fst (cycle cfg tmpdir now evs w))) (fs w))
    by (apply H; exact Hq).
  unfold cycle, runBackupOperation.
  fold (tmp_path tmpdir). fold (zip_path cfg now).
  unfold bind at 1 2 3. unfold log at 1 2. cbn [fst snd fs console].
  set (w0 := {| fs := fs w; console := _ |}).
  pose proof (copyFolder_same_outside ps (folderName cfg) (tmp_path tmpdir) w0 es
                Hsrc It) as H1.
  unfold bind at 1.
  destruct (copyFolder (folderName cfg) (tmp_path tmpdir) w0) as [w1 [[] | e]];
    cbn [fst snd] in *; [| exact H1].
  destruct (zipFolder_same_outside ps (tmp_path tmpdir) (zip_path cfg now)
              (tmp_path tmpdir) w1 Io) as [H2 H3].
  destruct (zipFolder (tmp_path tmpdir) (zip_path cfg now) (tmp_path tmpdir) w1)
    as [w2 [z | e]]; cbn [fst snd] in *.
  - destruct (H3 z eq_refl) as [Eo Et].
    apply (same_outside_trans ps _ (fs w2)).
    + apply deliver_same_outside; congruence.
    + apply (same_outside_trans ps _ (fs w1)); assumption.
  - apply (same_outside_trans ps _ (fs w1)); assumption.
Qed.

Lemma cycle_writes_only_temp_and_output_witness :
  disjoint (segments (tmp_path "/tmp")) ["srv"; "world"] = true /\
  disjoint (segments (zip_path sample_config sample_now)) ["srv"; "world"] = true /\
  lookup ["srv"; "world"]
    (fs (fst (cycle sample_config "/tmp" sample_now
                [EvProgress 30; EvError ENOSPC; EvClose 20] (mkWorld sample_root []))))
  = Some sample_world.
Proof.
  split; [reflexivity | split; [reflexivity |]].
  exact (cycle_writes_only_temp_and_output sample_config "/tmp" sample_now
           [EvProgress 30; EvError ENOSPC; EvClose 20] (mkWorld sample_root [])
           [("level.dat", File 10);
            ("region", Dir [("r.0.0.mca", File 30); ("r.0.1.mca", File 12)]);
            ("playerdata", Dir [])]
           ["srv"; "world"] eq_refl eq_refl eq_refl).
Defined.

(** ** A cycle that ends well *)

Lemma is_prefix_refl (p : list string) : is_prefix p p = true.
Proof.
  induction p as [| c p IH]; [reflexivity |]. simpl. now rewrite String.eqb_refl.
Qed.

Lemma disjoint_sym (p q : list string) : disjoint p q = disjoint q p.
Proof. unfold disjoint. apply andb_comm. Qed.

(** A write does not take away the folders above a path that is apart
    from it. *)
Lemma upd_reaches_frame (mk mk' : bool) (f : option node -> option node * result unit)
    (p : list string) :
  forall q cur, disjoint p q = true -> reaches mk' q cur = true ->
    reaches mk' q (fst (upd mk p f cur)) = true.
Proof.
  induction p as [| c p IH]; intros q cur D R; [discriminate |].
  destruct q as [| d q]; [reflexivity |].
  assert (Dt : String.eqb c d = true -> disjoint p q = true).
  { intro E. unfold disjoint in *. simpl in D.
    rewrite E in D. rewrite (String.eqb_sym d c), E in D. exact D. }
  destruct cur as [[sz | es | | ] |]; try discriminate.
  - cbn [upd]. destruct (upd mk p f (alookup c es)) as [r st] eqn:U.
    cbn [fst reaches] in *.
    destruct (String.eqb_spec c d) as [<- | Hne].
    + rewrite alookup_aset_same.
      specialize (IH q (alookup c es) (Dt eq_refl) R). rewrite U in IH. exact IH.
    + rewrite (alookup_aset_other c d r es Hne). exact R.
  - simpl in R. subst mk'. cbn [upd]. destruct mk; [| reflexivity].
    destruct (upd true p f None) as [r st] eqn:U. cbn [fst reaches].
    destruct (String.eqb_spec c d) as [<- | Hne].
    + rewrite alookup_aset_same.
      assert (R' : reaches true q None = true) by (destruct q; reflexivity).
      specialize (IH q None (Dt eq_refl) R'). rewrite U in IH. exact IH.
    + rewrite (alookup_aset_other c d r [] Hne). destruct q; reflexivity.
Qed.

Lemma write_at_reaches_frame (mk mk' : bool)
    (f : option node -> option node * result unit) (p q : list string) (root : node) :
  disjoint p q = true ->
  reaches mk' q (Some root) = true ->
  reaches mk' q (Some (fst (write_at mk p f root))) = true.
Proof.
  intros D R. unfold write_at.
  pose proof (upd_reaches_frame mk mk' f p q (Some root) D R) as H.
  destruct (upd mk p f (Some root)) as [[r |] st]; [exact H | exact R].
Qed.

(** [copyFolder] of a readable, well-named source directory to a
    temporary path that is not there. *)
Lemma copyFolder_fresh (folderPath tmpFolderPath : string) (w : world) (T : node) :
  resolve (segments folderPath) (fs w) = Ok T ->
  directory_tree T = true ->
  well_named T = true ->
  lookup (segments tmpFolderPath) (fs w) = None ->
  reaches true (segments tmpFolderPath) (Some (fs w)) = true ->
  is_prefix (segments folderPath) (segments tmpFolderPath) = false ->
  copyFolder folderPath tmpFolderPath w
  = ({| fs := fst (write_at true (segments tmpFolderPath) (cp_node T) (fs w));
        console := (console w ++ [LogCopying]) ++ [LogCopied] |}, Ok tt) /\
  lookup (segments tmpFolderPath)
    (fst (write_at true (segments tmpFolderPath) (cp_node T) (fs w))) = Some T.
Proof.
  intros Hsrc HD HW L R Hpre.
  destruct T as [sz | es | | ]; try discriminate.
  assert (Hcp : cp_node (Dir es) (lookup (segments tmpFolderPath) (fs w))
                = (Some (Dir es), Ok tt)).
  { rewrite L. apply cp_node_identity; assumption. }
  rewrite copyFolder_unfold, (mkdirSync_existing folderPath (fs w) es Hsrc).
  unfold cpSync. rewrite Hsrc, Hpre.
  destruct (write_at_reaches true (cp_node (Dir es)) (segments tmpFolderPath) (fs w) R)
    as [Hs Hl].
  { intros Hnil. rewrite Hnil in L. discriminate. }
  rewrite Hcp in Hs, Hl. cbn [fst snd] in Hs, Hl.
  destruct (write_at true (segments tmpFolderPath) (cp_node (Dir es)) (fs w))
    as [root2 st].
  cbn [fst snd] in *. subst st. auto.
Qed.

(** [zipFolder] on a readable snapshot, with an output path that is not
    there yet in a folder that is. *)
Lemma zipFolder_fresh (folderPath outputZipPath tmpFolder : string) (w : world)
    (T : node) :
  lookup (segments folderPath) (fs w) = Some T ->
  directory_tree T = true ->
  disjoint (segments outputZipPath) (segments folderPath) = true ->
  lookup (segments outputZipPath) (fs w) = None ->
  reaches false (segments outputZipPath) (Some (fs w)) = true ->
  exists w2,
    zipFolder folderPath outputZipPath tmpFolder w
    = (w2, Ok {| zOutput := outputZipPath; zTmp := tmpFolder;
                 totalBytes := running_total (regular_files T) 0;
                 bar := if (0 <? running_total (regular_files T) 0)%N
                        then Some {| total := running_total (regular_files T) 0;
                                     ratio := 0 |}
                        else None;
                 lastPrintedProgress := 0; divisions := [] |}) /\
    console w2 = (console w ++ [LogZipping])%list /\
    lookup (segments outputZipPath) (fs w2) = Some (File 0) /\
    lookup (segments folderPath) (fs w2) = Some T.
Proof.
  intros LT HD D Lo Ro.
  destruct (write_at_reaches false open_at (segments outputZipPath) (fs w) Ro)
    as [Hs Hl].
  { intros Hnil. rewrite Hnil in Lo. discriminate. }
  rewrite Lo in Hs, Hl. cbn [open_at fst snd] in Hs, Hl.
  pose proof (write_at_frame false open_at (segments outputZipPath)
                (segments folderPath) (fs w) D) as Hf.
  unfold zipFolder, bind, lift_fs, log, read_fs, ret, createWriteStream.
  destruct (write_at false (segments outputZipPath) open_at (fs w)) as [root1 st].
  cbn [fst snd] in *. subst st. cbn [fs console].
  rewrite LT in Hf. apply lookup_resolve in Hf.
  unfold getFolderSize. rewrite Hf.
  destruct T as [sz | es | | ]; try discriminate.
  rewrite (getSize_readable (Dir es) es eq_refl HD).
  eexists. split; [reflexivity |]. cbn [fs console].
  split; [reflexivity |]. split; [exact Hl |]. apply lookup_resolve. exact Hf.
Qed.

(** The handlers' variables that the events before the close leave
    alone. *)
Lemma deliver_before_close_build (evs : list event) :
  forall z w,
    before_close evs ->
    exists w' z' c,
      deliver evs z w = (w', Ok z') /\
      fs w' = fs w /\
      console w' = (console w ++ c)%list /\
      zOutput z' = zOutput z /\ zTmp z' = zTmp z /\
      totalBytes z' = totalBytes z /\
      bar_full_out z' = bar_full_out z.
Proof.
  induction evs as [| ev evs IH]; intros z w B.
  - exists w, z, []. rewrite app_nil_r. repeat split.
  - unfold before_close in B. simpl in B. apply andb_prop in B.
    destruct B as [Bev B].
    destruct ev as [n | err | zipSize]; [| | discriminate];
      cbn [deliver handle]; unfold bind at 1.
    + assert (H : exists w1 z1 c1,
                 on_progress n z w = (w1, Ok z1) /\ fs w1 = fs w /\
                 console w1 = (console w ++ c1)%list /\
                 zOutput z1 = zOutput z /\ zTmp z1 = zTmp z /\
                 totalBytes z1 = totalBytes z /\ bar_full_out z1 = bar_full_out z).
      { unfold on_progress, bar_full_out. destruct (bar z) as [b |] eqn:Eb.
        - destruct (Qle_bool _ _).
          + eexists _, _, [_]. split; [reflexivity |]. repeat split.
          + eexists _, _, []. split; [reflexivity |]. cbn [fs console bar].
            rewrite app_nil_r. repeat split.
        - exists w, z, []. rewrite app_nil_r, Eb. repeat split. }
      destruct H as (w1 & z1 & c1 & H1 & Hfs & Hc & Ho & Ht & Htot & Hb).
      rewrite H1.
      destruct (IH z1 w1 B) as (w' & z' & c & H2 & Hfs' & Hc' & Ho' & Ht' & Htot' & Hb').
      exists w', z', (c1 ++ c)%list. rewrite H2. rewrite app_assoc, <- Hc.
      repeat split; congruence.
    + unfold on_error, bind, log, ret. cbn [fst snd].
      destruct (IH z {| fs := fs w; console := console w ++ [LogException err] |} B)
        as (w' & z' & c & H2 & Hfs' & Hc' & Ho' & Ht' & Htot' & Hb').
      exists w', z', ([LogException err] ++ c)%list. rewrite H2.
      cbn [fs console] in *. rewrite app_assoc.
      repeat split; assumption.
Qed.

(** The close of the output when the output file and the temporary folder
    are there and apart, and the temporary folder holds no closed
    directory: the handler reports, removes the temporary folder, keeps the
    archive and returns. *)
Lemma close_completes (z : zip) (w : world) (zipSize k : N) (T : node) :
  lookup (segments (zOutput z)) (fs w) = Some (File k) ->
  lookup (segments (zTmp z)) (fs w) = Some T ->
  removable T = true ->
  disjoint (segments (zTmp z)) (segments (zOutput z)) = true ->
  exists w',
    handle (EvClose zipSize) z w = (w', Ok (bar_full z)) /\
    console w' = ((console w ++ bar_full_out z)
                    ++ [LogZipped (totalBytes z) zipSize;
                        LogDeleting; LogDeleted; LogWaiting])%list /\
    lookup (segments (zTmp z)) (fs w') = None /\
    lookup (segments (zOutput z)) (fs w') = Some (File zipSize).
Proof.
  intros Lo Lt RT D.
  assert (Hne : segments (zTmp z) <> []).
  { intro E. rewrite E in D. discriminate. }
  set (w1 := {| fs := fst (write_at false (segments (zOutput z)) (flush_at zipSize) (fs w));
                console := console w |}).
  change (handle (EvClose zipSize) z w) with (on_close z w1).
  assert (Lo1 : lookup (segments (zOutput z)) (fs w1) = Some (File zipSize))
    by (apply (write_flush_size zipSize k); exact Lo).
  assert (Hstat : statSync (zOutput z) (fs w1)
                  = Ok {| isDirectory := false; size := zipSize |}).
  { unfold statSync. apply lookup_resolve in Lo1. now rewrite Lo1. }
  assert (Rt1 : resolve (segments (zTmp z)) (fs w1) = Ok T).
  { apply lookup_resolve. unfold w1. cbn [fs].
    rewrite write_at_frame by (rewrite disjoint_sym; exact D). exact Lt. }
  destruct (rmSync_existing (zTmp z) (fs w1) T Rt1 RT Hne) as [Hrm Habs].
  pose proof (rmSync_fst (zTmp z) true true (fs w1)) as Hfst.
  pose proof (write_at_frame false (rm_at true true) (segments (zTmp z))
                (segments (zOutput z)) (fs w1) D) as Hfr.
  rewrite on_close_unfold, Hstat.
  destruct (rmSync (zTmp z) true true (fs w1)) as [root' st]. cbn [fst snd] in *.
  subst st. eexists. split; [reflexivity |]. cbn [fs console size].
  split; [reflexivity |]. split.
  - unfold lookup. now rewrite Habs.
  - rewrite Hfst, Hfr. exact Lo1.
Qed.

Lemma totalBytes_bar_full (z : zip) : totalBytes (bar_full z) = totalBytes z.
Proof. unfold bar_full. destruct (bar z); reflexivity. Qed.

(** X6. A whole cycle that ends well.  The source is a readable directory
    tree of less than 2^53 bytes whose directories list no name twice; the
    temporary folder is not there and not inside the source; the output
    file is not there yet, its folder is, and it is apart from the
    temporary folder.  Then, whatever
    progress and error events precede the close of the output, the cycle
    returns; the total it found and reports is the size of the source; the
    bar, if there is one, is set to 1 just before the report; the last four
    lines are the report, the deletion and the wait; the temporary folder
    is gone and the archive is in place with the size the stream wrote. *)
Theorem successful_cycle :
  forall (cfg : Config) (tmpdir : string) (now : Date) (w : world) (T : node)
         (evs : list event) (zipSize : N),
    resolve (segments (folderName cfg)) (fs w) = Ok T ->
    directory_tree T = true ->
    (tree_bytes T < 2 ^ 53)%N ->
    well_named T = true ->
    lookup (segments (tmp_path tmpdir)) (fs w) = None ->
    reaches true (segments (tmp_path tmpdir)) (Some (fs w)) = true ->
    is_prefix (segments (folderName cfg)) (segments (tmp_path tmpdir)) = false ->
    disjoint (segments (tmp_path tmpdir)) (segments (zip_path cfg now)) = true ->
    lookup (segments (zip_path cfg now)) (fs w) = None ->
    reaches false (segments (zip_path cfg now)) (Some (fs w)) = true ->
    before_close evs ->
    exists w' z' c,
      cycle cfg tmpdir now (evs ++ [EvClose zipSize]) w = (w', Ok z') /\
      totalBytes z' = tree_bytes T /\
      console w' =
        (c ++ (if (0 <? tree_bytes T)%N then [BarUpdate 1] else [])
           ++ [LogZipped (tree_bytes T) zipSize; LogDeleting; LogDeleted;
               LogWaiting])%list /\
      lookup (segments (tmp_path tmpdir)) (fs w') = None /\
      lookup (segments (zip_path cfg now)) (fs w') = Some (File zipSize).
Proof.
  intros cfg tmpdir now w T evs zipSize Hsrc HD HB HW Lt Rt Hpre D Lo Ro B.
  assert (Etot : running_total (regular_files T) 0 = tree_bytes T).
  { unfold tree_bytes in *. rewrite running_total_exact; [reflexivity |].
    rewrite N.add_0_l. exact HB. }
  assert (HR : removable T = true).
  { apply readable_removable. destruct T; try discriminate. exact HD. }
  unfold cycle, runBackupOperation.
  fold (tmp_path tmpdir). fold (zip_path cfg now).
  unfold bind at 1 2 3. unfold log at 1 2. cbn [fst snd fs console].
  set (w0 := {| fs := fs w; console := _ |}).
  (* the copy *)
  destruct (copyFolder_fresh (folderName cfg) (tmp_path tmpdir) w0 T
              Hsrc HD HW Lt Rt Hpre) as [Hcopy Ltmp].
  unfold bind at 1. rewrite Hcopy.
  set (w1 := {| fs := fst (write_at true (segments (tmp_path tmpdir)) (cp_node T) (fs w0));
                console := _ |}).
  (* the output stream and the total *)
  destruct (zipFolder_fresh (tmp_path tmpdir) (zip_path cfg now) (tmp_path tmpdir)
              w1 T Ltmp HD) as (w2 & Hzip & _ & Lo2 & Lt2).
  { rewrite disjoint_sym. exact D. }
  { unfold w1. cbn [fs]. rewrite (write_at_frame _ _ _ _ _ D). exact Lo. }
  { unfold w1. cbn [fs]. apply write_at_reaches_frame; assumption. }
  rewrite Etot in Hzip. rewrite Hzip.
  set (z := {| zOutput := zip_path cfg now; zTmp := tmp_path tmpdir;
               totalBytes := tree_bytes T; bar := _;
               lastPrintedProgress := 0; divisions := [] |}) in *.
  (* the events before the close *)
  rewrite deliver_app.
  destruct (deliver_before_close_build evs z w2 B)
    as (w3 & z3 & c & H3 & Hfs3 & Hc3 & Ho3 & Ht3 & Htot3 & Hb3).
  rewrite H3.
  (* the close *)
  destruct (close_completes z3 w3 zipSize 0 T) as (w4 & H4 & Hc4 & Lt4 & Lo4).
  { rewrite Ho3, Hfs3. exact Lo2. }
  { rewrite Ht3, Hfs3. exact Lt2. }
  { exact HR. }
  { rewrite Ht3, Ho3. exact D. }
  cbn [deliver]. unfold bind at 1. rewrite H4. unfold ret.
  exists w4, (bar_full z3), (console w3).
  split; [reflexivity |].
  split; [rewrite totalBytes_bar_full, Htot3; reflexivity |].
  rewrite Ht3 in Lt4. rewrite Ho3 in Lo4.
  split; [| split; assumption].
  rewrite Hc4, Hb3, Htot3, <- app_assoc. cbn [totalBytes z].
  unfold bar_full_out. cbn [bar z].
  destruct (0 <? tree_bytes T)%N; reflexivity.
Qed.

Lemma successful_cycle_witness :
  exists w' z' c,
    cycle sample_config "/tmp" sample_now
      ([EvProgress 10; EvError ENOENT; EvProgress 52] ++ [EvClose 20])
      (mkWorld sample_root []) = (w', Ok z') /\
    totalBytes z' = 52%N /\
    console w' =
      (c ++ [BarUpdate 1]
         ++ [LogZipped 52 20; LogDeleting; LogDeleted; LogWaiting])%list /\
    lookup (segments (tmp_path "/tmp")) (fs w') = None /\
    lookup (segments (zip_path sample_config sample_now)) (fs w') = Some (File 20).
Proof.
  exact (successful_cycle sample_config "/tmp" sample_now (mkWorld sample_root [])
           sample_world [EvProgress 10; EvError ENOENT; EvProgress 52] 20%N
           eq_refl eq_refl eq_refl eq_refl eq_refl eq_refl eq_refl eq_refl eq_refl
           eq_refl eq_refl).
Defined.

(** ** Two cycles and one temporary folder *)

Lemma close_ok_absent (z z' : zip) (w w' : world) (zipSize : N) :
  handle (EvClose zipSize) z w = (w', Ok z') ->
  resolve (segments (zTmp z)) (fs w') = Err ENOENT.
Proof.
  set (w1 := {| fs := fst (write_at false (segments (zOutput z)) (flush_at zipSize) (fs w));
                console := console w |}).
  change (handle (EvClose zipSize) z w) with (on_close z w1).
  rewrite on_close_unfold.
  destruct (statSync (zOutput z) (fs w1)) as [st | e]; [| discriminate].
  destruct (rmSync_cases (zTmp z) (fs w1)) as [[Hs Hr] | [e [Hs _]]];
    destruct (rmSync (zTmp z) true true (fs w1)) as [root' r];
    cbn [fst snd] in *; subst r; intro H; inversion H.
  exact Hr.
Qed.

Lemma runBackupOperation_ok (cfg : Config) (tmpdir : string) (now : Date)
    (w w1 : world) (z : zip) :
  runBackupOperation cfg tmpdir now w = (w1, Ok z) ->
  zTmp z = tmp_path tmpdir /\
  zOutput z = zip_path cfg now /\
  is_ok (getFolderSize (tmp_path tmpdir) (fs w1)) = true.
Proof.
  unfold runBackupOperation. fold (tmp_path tmpdir). fold (zip_path cfg now).
  unfold bind at 1 2 3. unfold log at 1 2. cbn [fst snd fs console].
  set (w0 := {| fs := fs w; console := _ |}).
  destruct (copyFolder (folderName cfg) (tmp_path tmpdir) w0) as [wc [[] | e]];
    [| discriminate].
  intro H. destruct (zipFolder_ok _ _ _ _ _ _ H) as (root1 & total & _ & Hg & -> & ->).
  cbn [zTmp zOutput fs]. rewrite Hg. auto.
Qed.

(** X7. Every cycle of the process uses the same temporary folder.  When
    a second cycle has started and the output of the first one closes, the
    close handler of the first removes that folder: the snapshot that the
    second cycle is archiving was on disk before the close and is not
    after it. *)
Theorem close_of_first_cycle_removes_snapshot_of_second :
  forall (cfgA cfgB : Config) (tmpdir : string) (nowA nowB : Date)
         (wa wa' wb w2 w3 : world) (zA zA' zB : zip) (zipSize : N),
    runBackupOperation cfgA tmpdir nowA wa = (wa', Ok zA) ->
    runBackupOperation cfgB tmpdir nowB wb = (w2, Ok zB) ->
    handle (EvClose zipSize) zA w2 = (w3, Ok zA') ->
    zTmp zB = zTmp zA /\
    is_ok (getFolderSize (zTmp zB) (fs w2)) = true /\
    existsSync (zTmp zB) (fs w3) = false /\
    getFolderSize (zTmp zB) (fs w3) = Err ENOENT.
Proof.
  intros cfgA cfgB tmpdir nowA nowB wa wa' wb w2 w3 zA zA' zB zipSize HA HB HC.
  destruct (runBackupOperation_ok _ _ _ _ _ _ HA) as (HtA & _ & _).
  destruct (runBackupOperation_ok _ _ _ _ _ _ HB) as (HtB & _ & HgB).
  pose proof (close_ok_absent _ _ _ _ _ HC) as Habs.
  rewrite HtB, HtA in *.
  split; [reflexivity |]. split; [exact HgB |].
  unfold existsSync, getFolderSize. rewrite Habs. auto.
Qed.

Lemma close_of_first_cycle_removes_snapshot_of_second_witness :
  let later := mkDate 2025 2 7 10 5 3 120 in
  let rA := runBackupOperation sample_config "/tmp" sample_now (mkWorld sample_root []) in
  let rB := runBackupOperation sample_config "/tmp" later (fst rA) in
  exists zA zB w3 zA',
    snd rA = Ok zA /\ snd rB = Ok zB /\
    handle (EvClose 20) zA (fst rB) = (w3, Ok zA') /\
    is_ok (getFolderSize (zTmp zB) (fs (fst rB))) = true /\
    getFolderSize (zTmp zB) (fs w3) = Err ENOENT.
Proof.
  cbv zeta.
  set (later := mkDate 2025 2 7 10 5 3 120).
  set (rA := runBackupOperation sample_config "/tmp" sample_now (mkWorld sample_root [])).
  set (rB := runBackupOperation sample_config "/tmp" later (fst rA)).
  destruct rA as [wa' [zA | e]] eqn:EA; [| vm_compute in EA; discriminate].
  destruct rB as [w2 [zB | e]] eqn:EB;
    [| unfold rB in EB; inversion EA; subst; vm_compute in EB; discriminate].
  destruct (handle (EvClose 20) zA w2) as [w3 [zA' | e]] eqn:EC;
    [| unfold rB in EB; inversion EA; subst; inversion EB; subst;
       vm_compute in EC; discriminate].
  exists zA, zB, w3, zA'. cbn [fst snd].
  destruct (close_of_first_cycle_removes_snapshot_of_second
              sample_config sample_config "/tmp" sample_now later
              (mkWorld sample_root []) wa' wa' w2 w3 zA zA' zB 20%N EA EB EC)
    as (_ & H1 & _ & H2).
  auto.
Defined.

(** ** The number of progress updates *)

Lemma fraction_le_1 (n : N) (z : zip) :
  (0 < totalBytes z)%N -> (n <= totalBytes z)%N ->
  (fraction n z <= 1 + (1 # 2 ^ 51))%Q.
Proof. intros Ht Hn. unfold fraction. apply js_div_part; assumption. Qed.

Lemma deliver_last_le_1 (evs : list event) :
  forall z w w' z',
    before_close evs ->
    (0 < totalBytes z)%N ->
    (forall n, In (EvProgress n) evs -> (n <= totalBytes z)%N) ->
    (lastPrintedProgress z <= 1 + (1 # 2 ^ 51))%Q ->
    deliver evs z w = (w', Ok z') ->
    (lastPrintedProgress z' <= 1 + (1 # 2 ^ 51))%Q.
Proof.
  induction evs as [| ev evs IH]; intros z w w' z' B Ht Hn Hl H.
  - inversion H. subst. exact Hl.
  - unfold before_close in B. simpl in B. apply andb_prop in B.
    destruct B as [Bev B].
    destruct ev as [n | err | zipSize]; [| | discriminate];
      cbn [deliver handle] in H; unfold bind at 1 in H.
    + destruct (on_progress_step n z w) as (w1 & z1 & H1 & _ & Htot & _ & Hcase).
      rewrite H1 in H.
      apply (IH z1 w1 w' z' B); try assumption.
      * now rewrite Htot.
      * intros m Hm. rewrite Htot. apply Hn. right. exact Hm.
      * destruct Hcase as [[_ E] | [_ [E _]]]; rewrite E; [exact Hl |].
        apply fraction_le_1; [exact Ht |]. apply Hn. left. reflexivity.
    + unfold on_error, bind, log, ret in H. cbn [fst snd] in H.
      apply (IH z {| fs := fs w; console := console w ++ [LogException err] |}
               w' z' B); try assumption.
      intros m Hm. apply Hn. right. exact Hm.
Qed.

(** X8. While the archive reports no more bytes than the total, the
    progress handler draws at most one hundred times before the output
    closes; it never raises and never touches the disk. *)
Theorem at_most_hundred_progress_updates :
  forall (evs : list event) (z : zip) (w : world),
    before_close evs ->
    lastPrintedProgress z = 0%Q ->
    (0 < totalBytes z)%N ->
    (forall n, In (EvProgress n) evs -> (n <= totalBytes z)%N) ->
    exists w' z' us,
      deliver evs z w = (w', Ok z') /\
      fs w' = fs w /\
      bar_updates (console w') = (bar_updates (console w) ++ us)%list /\
      (List.length us <= 100)%nat.
Proof.
  intros evs z w B H0 Ht Hn.
  destruct (deliver_before_close evs z w B)
    as (w' & z' & us & H & Hfs & _ & _ & Hus & _ & Hcnt).
  exists w', z', us. repeat split; try assumption.
  assert (Hl : (lastPrintedProgress z' <= 1 + (1 # 2 ^ 51))%Q).
  { apply (deliver_last_le_1 evs z w w' z'); try assumption.
    rewrite H0. unfold Qle. simpl. lia. }
  rewrite H0 in Hcnt. unfold least_advance in Hcnt.
  change (1 # 2 ^ 51)%Q with (1 # 2251799813685248)%Q in Hl.
  assert (Hq : (inject_Z (Z.of_nat (List.length us)) < inject_Z 101)%Q).
  { change (inject_Z 101) with 101%Q. lra. }
  rewrite <- Zlt_Qlt in Hq. lia.
Qed.

Lemma at_most_hundred_progress_updates_witness :
  exists w' z' us,
    deliver [EvProgress 1; EvProgress 26; EvError ENOSPC; EvProgress 52]
      sample_zip (mkWorld sample_root []) = (w', Ok z') /\
    fs w' = sample_root /\
    bar_updates (console w') = us /\
    (List.length us <= 100)%nat.
Proof.
  apply (at_most_hundred_progress_updates
           [EvProgress 1; EvProgress 26; EvError ENOSPC; EvProgress 52]
           sample_zip (mkWorld sample_root []) eq_refl eq_refl eq_refl).
  intros n [E | [E | [E | [E | []]]]]; inversion E; subst; vm_compute; discriminate.
Defined.

(** ** When there is a bar *)

(** X9. [zipFolder] creates the progress bar exactly when the folder it
    scans holds a file that is not empty: when it returns, the folder is a
    readable directory tree, the total is what the walk added up in
    doubles (the exact sum of the file sizes when that is below 2^53), and
    the bar is absent if and only if every file in it has length 0. *)
Theorem bar_absent_iff_all_files_empty :
  forall (folderPath outputZipPath tmpFolder : string) (w w1 : world) (z : zip),
    zipFolder folderPath outputZipPath tmpFolder w = (w1, Ok z) ->
    exists T,
      resolve (segments folderPath) (fs w1) = Ok T /\
      directory_tree T = true /\
      totalBytes z = running_total (regular_files T) 0 /\
      ((tree_bytes T < 2 ^ 53)%N -> totalBytes z = tree_bytes T) /\
      (bar z = None <-> Forall (fun s => s = 0%N) (regular_files T)).
Proof.
  intros folderPath outputZipPath tmpFolder w w1 z H.
  destruct (zipFolder_ok _ _ _ _ _ _ H) as (root1 & total & _ & Hg & -> & ->).
  cbn [fs totalBytes bar]. unfold getFolderSize in Hg.
  destruct (resolve (segments folderPath) root1) as [T | e]; [| discriminate].
  exists T. split; [reflexivity |].
  assert (HD : directory_tree T = true).
  { rewrite <- (getSize_ok_iff T 0), Hg. reflexivity. }
  split; [exact HD |].
  destruct T as [sz | es | | ]; try discriminate.
  rewrite (getSize_readable (Dir es) es eq_refl HD) in Hg.
  inversion Hg as [Ht]. split; [reflexivity |].
  split.
  { intro B. unfold tree_bytes in *. rewrite running_total_exact; [reflexivity |].
    rewrite N.add_0_l. exact B. }
  pose proof (running_total_zero (regular_files (Dir es)) 0) as Z.
  cbn [regular_files] in *.
  set (t := running_total _ 0) in *.
  destruct (0 <? t)%N eqn:E.
  - apply N.ltb_lt in E. split; [discriminate |].
    intro F. assert (t = 0%N) by (apply Z; auto). lia.
  - apply N.ltb_ge in E. split; [| reflexivity].
    intros _. apply Z. lia.
Qed.

Lemma bar_absent_iff_all_files_empty_witness :
  exists T,
    resolve (segments "/tmp/temp_backup_world")
      (fs (fst (zipFolder "/tmp/temp_backup_world" "/backups/empty.zip"
                  "/tmp/temp_backup_world" (mkWorld empty_snapshot_root []))))
      = Ok T /\
    directory_tree T = true /\
    Forall (fun s => s = 0%N) (regular_files T).
Proof.
  destruct (bar_absent_iff_all_files_empty
              "/tmp/temp_backup_world" "/backups/empty.zip" "/tmp/temp_backup_world"
              (mkWorld empty_snapshot_root [])
              (fst (zipFolder "/tmp/temp_backup_world" "/backups/empty.zip"
                      "/tmp/temp_backup_world" (mkWorld empty_snapshot_root [])))
              {| zOutput := "/backups/empty.zip"; zTmp := "/tmp/temp_backup_world";
                 totalBytes := 0; bar := None; lastPrintedProgress := 0;
                 divisions := [] |}
              eq_refl) as (T & HT & HD & _ & _ & Hiff).
  exists T. split; [exact HT | split; [exact HD |]].
  apply Hiff. reflexivity.
Defined.

(** ** Archive names across time *)

Lemma append_split (a1 a2 x y : string) :
  String.length a1 = String.length a2 ->
  a1 ++ x = a2 ++ y -> a1 = a2 /\ x = y.
Proof.
  revert a2. induction a1 as [| c a1 IH]; intros [| d a2] Hl H;
    try discriminate; simpl in *.
  - auto.
  - injection H as Hc H. injection Hl as Hl.
    destruct (IH a2 Hl H) as [E1 E2]. subst. auto.
Qed.

Lemma decimal_length (k : nat) (s : string) (v : Z) :
  decimal k s v -> String.length s = k.
Proof. intros [H _]. exact H. Qed.

Lemma decimal_value (k : nat) (s : string) (v1 v2 : Z) :
  decimal k s v1 -> decimal k s v2 -> v1 = v2.
Proof. intros [_ H1] [_ H2]. congruence. Qed.

(** The six fields of the timestamp, as the template string writes
    them. *)
Lemma timestamp_fields (now : Date) :
  wall_clock now ->
  exists Y M D h m s : string,
    timestamp now = Y ++ "-" ++ M ++ "-" ++ D ++ "_" ++ h ++ "-" ++ m ++ "-" ++ s /\
    decimal 4 Y (getFullYear now) /\
    decimal 2 M (getMonth now + 1) /\
    decimal 2 D (getDate now) /\
    decimal 2 h (getHours now) /\
    decimal 2 m (getMinutes now) /\
    decimal 2 s (getSeconds now).
Proof.
  intros (Hy & Hm & Hd & Hh & Hi & Hs).
  exists (String_of_Z (getFullYear now)),
         (padStart (String_of_Z (getMonth now + 1)) 2 "0"),
         (padStart (String_of_Z (getDate now)) 2 "0"),
         (padStart (String_of_Z (getHours now)) 2 "0"),
         (padStart (String_of_Z (getMinutes now)) 2 "0"),
         (padStart (String_of_Z (getSeconds now)) 2 "0").
  split; [reflexivity |].
  repeat split;
    first [ apply year_four_digits; lia | apply padStart_two_digits; lia ].
Qed.

Lemma timestamp_length (now : Date) :
  wall_clock now -> String.length (timestamp now) = 19%nat.
Proof.
  intro W.
  destruct (timestamp_fields now W)
    as (Y & M & D & h & m & s & E & [LY _] & [LM _] & [LD _] & [Lh _] & [Lm _] & [Ls _]).
  rewrite E. repeat (rewrite length_append; simpl).
  rewrite LY, LM, LD, Lh, Lm, Ls. reflexivity.
Qed.

(** Split an equation between two timestamps at a field of known width. *)
Ltac peel E F HA HB :=
  apply append_split in E;
  [ destruct E as [F E]; simpl in E; injection E as E
  | rewrite (decimal_length _ _ _ HA), (decimal_length _ _ _ HB); reflexivity ].

Lemma timestamp_injective (a b : Date) :
  wall_clock a -> wall_clock b -> timestamp a = timestamp b -> same_second a b.
Proof.
  intros Wa Wb E.
  destruct (timestamp_fields a Wa)
    as (Y & M & D & h & m & s & Ea & HY & HM & HD & Hh & Hm & Hs).
  destruct (timestamp_fields b Wb)
    as (Y' & M' & D' & h' & m' & s' & Eb & HY' & HM' & HD' & Hh' & Hm' & Hs').
  rewrite Ea, Eb in E.
  peel E EY HY HY'. peel E EM HM HM'. peel E ED HD HD'.
  peel E Eh Hh Hh'. peel E Em Hm Hm'.
  subst Y' M' D' h' m' s'.
  unfold same_second.
  pose proof (decimal_value _ _ _ _ HY HY').
  pose proof (decimal_value _ _ _ _ HM HM').
  pose proof (decimal_value _ _ _ _ HD HD').
  pose proof (decimal_value _ _ _ _ Hh Hh').
  pose proof (decimal_value _ _ _ _ Hm Hm').
  pose proof (decimal_value _ _ _ _ Hs Hs').
  repeat split; lia.
Qed.

(** X10. Two generated names collide exactly when they come from the same
    second and the same basename: under wall-clock readings the names are
    equal if and only if the readings are within the same second and the
    source paths have the same basename. *)
Theorem names_equal_iff_same_second_and_basename :
  forall (now1 now2 : Date) (folderPath1 folderPath2 : string),
    wall_clock now1 ->
    wall_clock now2 ->
    (generateZipFilename now1 folderPath1 = generateZipFilename now2 folderPath2 <->
     same_second now1 now2 /\ basename folderPath1 = basename folderPath2).
Proof.
  intros now1 now2 p1 p2 W1 W2. unfold generateZipFilename. cbv zeta. split.
  - intro E. apply append_split in E.
    + destruct E as [Et E]. split; [apply timestamp_injective; assumption |].
      apply (append_inv_head "_") in E. apply append_inv_tail in E. exact E.
    + now rewrite !timestamp_length.
  - intros [Hs Hb]. now rewrite (timestamp_same_second _ _ Hs), Hb.
Qed.

Lemma names_equal_iff_same_second_and_basename_witness :
  wall_clock sample_now /\
  wall_clock (mkDate 2025 2 7 9 5 4 0) /\
  generateZipFilename sample_now "/srv/world"
    <> generateZipFilename (mkDate 2025 2 7 9 5 4 0) "/srv/world".
Proof.
  assert (W1 : wall_clock sample_now) by (unfold wall_clock; simpl; lia).
  assert (W2 : wall_clock (mkDate 2025 2 7 9 5 4 0)) by (unfold wall_clock; simpl; lia).
  split; [exact W1 | split; [exact W2 |]].
  intro E.
  apply (names_equal_iff_same_second_and_basename _ _ _ _ W1 W2) in E.
  destruct E as [(_ & _ & _ & _ & _ & Hs) _]. discriminate.
Defined.

(** ** Archive names in order *)

Lemma is_digit_value (c : ascii) :
  is_digit c = true -> 0 <= Z.of_N (N_of_ascii c - 48) <= 9.
Proof.
  unfold is_digit. intro H. apply andb_prop in H. destruct H as [H1 H2].
  apply N.leb_le in H1. apply N.leb_le in H2. lia.
Qed.

(** A string of [n] digits read after [acc] lies in the block of [10^n]
    numbers that starts at [acc * 10^n]. *)
Lemma digits_value_bounds (s : string) :
  forall acc v, digits_value s acc = Some v ->
    acc * 10 ^ Z.of_nat (String.length s) <= v
    < (acc + 1) * 10 ^ Z.of_nat (String.length s).
Proof.
  induction s as [| c s IH]; intros acc v H.
  - simpl in *. inversion H. lia.
  - cbn [digits_value] in H. destruct (is_digit c) eqn:Dc; [| discriminate].
    apply is_digit_value in Dc. specialize (IH _ _ H).
    cbn [String.length]. rewrite Nat2Z.inj_succ, Z.pow_succ_r by lia.
    assert (0 < 10 ^ Z.of_nat (String.length s)) by (apply Z.pow_pos_nonneg; lia).
    nia.
Qed.

Lemma string_compare_refl (s : string) : String.compare s s = Eq.
Proof.
  induction s as [| c s IH]; [reflexivity |]. simpl.
  unfold Ascii.compare. now rewrite N.compare_refl.
Qed.

(** Strings of digits of one length compare as the numbers they write. *)
Lemma digits_compare (s1 : string) :
  forall s2 acc v1 v2,
    String.length s1 = String.length s2 ->
    digits_value s1 acc = Some v1 ->
    digits_value s2 acc = Some v2 ->
    String.compare s1 s2 = Z.compare v1 v2.
Proof.
  induction s1 as [| c1 s1 IH]; intros [| c2 s2] acc v1 v2 Hl H1 H2;
    try discriminate.
  - simpl in *. inversion H1. inversion H2. subst. now rewrite Z.compare_refl.
  - injection Hl as Hl.
    cbn [digits_value] in H1, H2.
    destruct (is_digit c1) eqn:D1; [| discriminate].
    destruct (is_digit c2) eqn:D2; [| discriminate].
    pose proof (is_digit_value _ D1) as B1. pose proof (is_digit_value _ D2) as B2.
    unfold is_digit in D1, D2.
    apply andb_prop in D1. destruct D1 as [L1 U1]. apply N.leb_le in L1.
    apply andb_prop in D2. destruct D2 as [L2 U2]. apply N.leb_le in L2.
    pose proof (digits_value_bounds _ _ _ H1) as V1.
    pose proof (digits_value_bounds _ _ _ H2) as V2.
    rewrite <- Hl in V2.
    assert (0 < 10 ^ Z.of_nat (String.length s1)) by (apply Z.pow_pos_nonneg; lia).
    cbn [String.compare]. unfold Ascii.compare.
    destruct (N.compare_spec (N_of_ascii c1) (N_of_ascii c2)) as [E | E | E].
    + rewrite E in H1. apply (IH s2 _ v1 v2 Hl H1 H2).
    + symmetry. apply Z.compare_lt_iff. nia.
    + symmetry. apply Z.compare_gt_iff. nia.
Qed.

Lemma decimal_compare (k : nat) (s1 s2 : string) (v1 v2 : Z) :
  decimal k s1 v1 -> decimal k s2 v2 -> String.compare s1 s2 = Z.compare v1 v2.
Proof.
  intros [L1 H1] [L2 H2]. apply (digits_compare s1 s2 0); congruence.
Qed.

(** Behind prefixes of one length the order is decided by the prefixes,
    and by what follows when they are equal. *)
Lemma compare_append (a1 : string) :
  forall a2 x y,
    String.length a1 = String.length a2 ->
    String.compare (a1 ++ x) (a2 ++ y) =
    match String.compare a1 a2 with
    | Eq => String.compare x y
    | c => c
    end.
Proof.
  induction a1 as [| c1 a1 IH]; intros [| c2 a2] x y Hl; try discriminate.
  - reflexivity.
  - injection Hl as Hl. cbn [append String.compare].
    destruct (Ascii.compare c1 c2); [apply IH; exact Hl | reflexivity | reflexivity].
Qed.

Lemma compare_field (k : nat) (s1 s2 x y : string) (v1 v2 : Z) :
  decimal k s1 v1 -> decimal k s2 v2 ->
  String.compare (s1 ++ x) (s2 ++ y) =
  match Z.compare v1 v2 with
  | Eq => String.compare x y
  | c => c
  end.
Proof.
  intros H1 H2.
  rewrite compare_append
    by (rewrite (decimal_length _ _ _ H1), (decimal_length _ _ _ H2); reflexivity).
  now rewrite (decimal_compare k s1 s2 v1 v2 H1 H2).
Qed.

(** The timestamps compare as the readings they write. *)
Lemma timestamp_compare (a b : Date) (x y : string) :
  wall_clock a -> wall_clock b ->
  String.compare (timestamp a ++ x) (timestamp b ++ y) =
  match date_compare a b with
  | Eq => String.compare x y
  | c => c
  end.
Proof.
  intros Wa Wb.
  destruct (timestamp_fields a Wa)
    as (Y & M & D & h & m & s & Ea & HY & HM & HD & Hh & Hm & Hs).
  destruct (timestamp_fields b Wb)
    as (Y' & M' & D' & h' & m' & s' & Eb & HY' & HM' & HD' & Hh' & Hm' & Hs').
  rewrite Ea, Eb. repeat rewrite append_assoc.
  unfold date_compare, date_fields. cbn [fields_compare].
  rewrite (compare_field 4 Y Y' _ _ _ _ HY HY').
  destruct (getFullYear a ?= getFullYear b); try reflexivity.
  cbn [append String.compare]. cbv [Ascii.compare N_of_ascii N.compare].
  simpl (N.compare _ _).
  rewrite (compare_field 2 M M' _ _ _ _ HM HM').
  rewrite (Z.add_comm (getMonth a) 1), (Z.add_comm (getMonth b) 1),
    Z.add_compare_mono_l.
  destruct (getMonth a ?= getMonth b); try reflexivity.
  cbn [append String.compare].
  rewrite (compare_field 2 D D' _ _ _ _ HD HD').
  destruct (getDate a ?= getDate b); try reflexivity.
  cbn [append String.compare].
  rewrite (compare_field 2 h h' _ _ _ _ Hh Hh').
  destruct (getHours a ?= getHours b); try reflexivity.
  cbn [append String.compare].
  rewrite (compare_field 2 m m' _ _ _ _ Hm Hm').
  destruct (getMinutes a ?= getMinutes b); try reflexivity.
  cbn [append String.compare].
  rewrite (compare_field 2 s s' _ _ _ _ Hs Hs').
  destruct (getSeconds a ?= getSeconds b); reflexivity.
Qed.

(** X11. The archives of one folder sort by name in the order of time:
    under wall-clock readings, two names generated for the same basename
    compare, as strings, the way the two readings compare down to the
    second. *)
Theorem names_sort_chronologically :
  forall (now1 now2 : Date) (folderPath1 folderPath2 : string),
    wall_clock now1 ->
    wall_clock now2 ->
    basename folderPath1 = basename folderPath2 ->
    String.compare (generateZipFilename now1 folderPath1)
                   (generateZipFilename now2 folderPath2)
    = date_compare now1 now2.
Proof.
  intros now1 now2 p1 p2 W1 W2 Hb.
  unfold generateZipFilename. cbv zeta.
  rewrite (timestamp_compare now1 now2 _ _ W1 W2), Hb, string_compare_refl.
  destruct (date_compare now1 now2); reflexivity.
Qed.

Lemma names_sort_chronologically_witness :
  wall_clock (mkDate 2025 8 30 23 59 59 0) /\
  wall_clock (mkDate 2025 9 1 0 0 0 0) /\
  String.compare (generateZipFilename (mkDate 2025 8 30 23 59 59 0) "/srv/world")
                 (generateZipFilename (mkDate 2025 9 1 0 0 0 0) "/srv/world/")
  = Lt.
Proof.
  assert (W1 : wall_clock (mkDate 2025 8 30 23 59 59 0))
    by (unfold wall_clock; simpl; lia).
  assert (W2 : wall_clock (mkDate 2025 9 1 0 0 0 0))
    by (unfold wall_clock; simpl; lia).
  split; [exact W1 | split; [exact W2 |]].
  rewrite (names_sort_chronologically _ _ "/srv/world" "/srv/world/" W1 W2 eq_refl).
  reflexivity.
Defined.

(** ** The cycles in flight *)

Lemma filter_map_swap {A B : Type} (f : B -> bool) (g : A -> B) (l : list A) :
  filter f (map g l) = map g (filter (fun x => f (g x)) l).
Proof.
  induction l as [| x l IH]; simpl; [reflexivity |].
  destruct (f (g x)); simpl; now rewrite IH.
Qed.

Lemma filter_filter_implied {A : Type} (f g : A -> bool) (l : list A) :
  (forall x, f x = true -> g x = true) ->
  filter f (filter g l) = filter f l.
Proof.
  intro H. induction l as [| x l IH]; simpl; [reflexivity |].
  destruct (g x) eqn:G; simpl.
  - now rewrite IH.
  - destruct (f x) eqn:F; [rewrite (H x F) in G; discriminate | exact IH].
Qed.

Lemma filter_all {A : Type} (f : A -> bool) (l : list A) :
  (forall x, In x l -> f x = true) -> filter f l = l.
Proof.
  induction l as [| x l IH]; simpl; intro H; [reflexivity |].
  rewrite (H x (or_introl eq_refl)). f_equal. apply IH. auto.
Qed.

(** After each firing of the timer, the cycles in flight are the cycles
    started so far whose last event is still to come, oldest first. *)
Lemma in_flight_unfinished (dur : nat -> Z) :
  (forall k, 0 < dur k) ->
  forall fires,
    in_flight (scheduler dur fires)
    = map (fun k => (k, cycle_end dur k)) (unfinished dur fires).
Proof.
  intros Hdur fires. induction fires as [| n IH].
  - unfold unfinished, cycle_end. cbn [seq filter]. simpl (Z.of_nat 0 * INTERVAL).
    assert (E : (0 <? 0 + dur 0%nat) = true) by (apply Z.ltb_lt; specialize (Hdur 0%nat); lia).
    rewrite E. reflexivity.
  - destruct (scheduler_clock dur n) as [Hc Hl].
    cbn [scheduler]. unfold timer_fire, start_cycle, settle.
    cbn [clock launched in_flight snd]. rewrite IH, Hc, Hl.
    rewrite filter_map_swap. cbn [snd].
    unfold unfinished at 2. rewrite seq_S, filter_app. cbn [plus filter].
    assert (E : (Z.of_nat (S n) * INTERVAL <? cycle_end dur (S n)) = true).
    { apply Z.ltb_lt. unfold cycle_end. specialize (Hdur (S n)). lia. }
    rewrite E, map_app. cbn [map].
    assert (EI : Z.of_nat n * INTERVAL + INTERVAL = Z.of_nat (S n) * INTERVAL)
      by (rewrite Nat2Z.inj_succ; unfold INTERVAL; lia).
    f_equal.
    + f_equal. unfold unfinished. rewrite EI.
      apply filter_filter_implied.
      intros k Hk. apply Z.ltb_lt in Hk. apply Z.ltb_lt.
      rewrite Nat2Z.inj_succ in Hk. unfold INTERVAL in *. lia.
    + unfold cycle_end. rewrite EI. reflexivity.
Qed.

(** X12. With cycles that each take some time, after every firing of the
    timer the cycles in flight are exactly the cycles started so far whose
    last event lies after that firing; so a cycle that takes several hours
    stays in flight across the firings in between, and when none of the
    cycles started so far is over, all of them are in flight at once. *)
Theorem cycles_in_flight :
  forall dur : nat -> Z,
    (forall k, 0 < dur k) ->
    forall fires : nat,
      (forall k : nat,
         In k (map fst (in_flight (scheduler dur fires))) <->
         (k <= fires)%nat /\ Z.of_nat fires * INTERVAL < cycle_end dur k) /\
      ((forall k : nat, (k <= fires)%nat ->
                        Z.of_nat fires * INTERVAL < cycle_end dur k) ->
       List.length (in_flight (scheduler dur fires)) = S fires).
Proof.
  intros dur Hdur fires.
  rewrite (in_flight_unfinished dur Hdur fires). split.
  - intro k. rewrite map_map. cbn [fst]. rewrite map_id.
    unfold unfinished. rewrite filter_In, in_seq, Z.ltb_lt. split.
    + intros [H1 H2]. split; [lia | exact H2].
    + intros [H1 H2]. split; [lia | exact H2].
  - intro Hall. rewrite length_map. unfold unfinished.
    rewrite filter_all; [apply length_seq |].
    intros k Hk. apply in_seq in Hk. apply Z.ltb_lt. apply Hall. lia.
Qed.

Lemma cycles_in_flight_witness :
  (forall k : nat, 0 < (fun _ : nat => 3 * INTERVAL) k) /\
  List.length (in_flight (scheduler (fun _ => 3 * INTERVAL) 2)) = 3%nat /\
  In 0%nat (map fst (in_flight (scheduler (fun _ => 3 * INTERVAL) 2))).
Proof.
  assert (H : forall k : nat, 0 < (fun _ : nat => 3 * INTERVAL) k)
    by (intro; unfold INTERVAL; lia).
  split; [exact H |].
  destruct (cycles_in_flight (fun _ => 3 * INTERVAL) H 2%nat) as [A B].
  split.
  - apply B. intros k Hk. unfold cycle_end, INTERVAL. lia.
  - apply A. split; [lia |]. unfold cycle_end, INTERVAL. lia.
Defined.

(** ** A scan that fails after the output was opened *)

Lemma getFolderSize_ok_lookup (folderPath : string) (root : node) :
  is_ok (getFolderSize folderPath root)
  = match lookup (segments folderPath) root with
    | Some T => directory_tree T
    | None => false
    end.
Proof.
  unfold getFolderSize, lookup.
  destruct (resolve (segments folderPath) root) as [T | e]; [| reflexivity].
  apply getSize_ok_iff.
Qed.

(** X13. [zipFolder] opens the output file before it scans the folder.
    When the folder cannot be scanned (it is missing, or an entry in it
    cannot be read or [stat]ed), [zipFolder] ends with the error of the
    scan and the output file it has just created stays on disk with 0
    bytes. *)
Theorem failed_scan_leaves_empty_archive :
  forall (folderPath outputZipPath tmpFolder : string) (w : world),
    lookup (segments outputZipPath) (fs w) = None ->
    reaches false (segments outputZipPath) (Some (fs w)) = true ->
    disjoint (segments outputZipPath) (segments folderPath) = true ->
    is_ok (getFolderSize folderPath (fs w)) = false ->
    exists w' e,
      zipFolder folderPath outputZipPath tmpFolder w = (w', Err e) /\
      lookup (segments outputZipPath) (fs w') = Some (File 0) /\
      (forall q, disjoint (segments outputZipPath) q = true ->
                 lookup q (fs w') = lookup q (fs w)).
Proof.
  intros folderPath outputZipPath tmpFolder w Lo Ro D Hscan.
  destruct (write_at_reaches false open_at (segments outputZipPath) (fs w) Ro)
    as [Hs Hl].
  { intros Hnil. rewrite Hnil in Lo. discriminate. }
  rewrite Lo in Hs, Hl. cbn [open_at fst snd] in Hs, Hl.
  pose proof (fun q => write_at_frame false open_at (segments outputZipPath) q (fs w))
    as Hf.
  assert (Hscan' : is_ok (getFolderSize folderPath
                            (fst (write_at false (segments outputZipPath) open_at (fs w))))
                   = false).
  { rewrite getFolderSize_ok_lookup, (Hf _ D), <- getFolderSize_ok_lookup. exact Hscan. }
  unfold zipFolder, bind, lift_fs, log, read_fs, ret, createWriteStream.
  destruct (write_at false (segments outputZipPath) open_at (fs w)) as [root1 st].
  cbn [fst snd] in *. subst st. cbn [fs console].
  destruct (getFolderSize folderPath root1) as [t | e]; [discriminate |].
  eexists _, e. split; [reflexivity |]. cbn [fs]. auto.
Qed.

Lemma failed_scan_leaves_empty_archive_witness :
  exists w' e,
    zipFolder "/srv/world" "/backups/world.zip" "/tmp/temp_backup_world"
      (mkWorld (root_with linked_world) []) = (w', Err e) /\
    lookup (segments "/backups/world.zip") (fs w') = Some (File 0).
Proof.
  destruct (failed_scan_leaves_empty_archive
              "/srv/world" "/backups/world.zip" "/tmp/temp_backup_world"
              (mkWorld (root_with linked_world) [])
              eq_refl eq_refl eq_refl eq_refl) as (w' & e & H & L & _).
  exists w', e. auto.
Defined.

(** ** The first start *)

Lemma split_on_nonempty (sep : ascii) (s : string) : split_on sep s <> [].
Proof.
  destruct s as [| c s]; simpl; [discriminate |].
  destruct (Ascii.eqb c sep); [discriminate |].
  destruct (split_on sep s); discriminate.
Qed.

Lemma split_on_append (sep : ascii) (a b : string) :
  split_on sep (a ++ String sep b) = (split_on sep a ++ split_on sep b)%list.
Proof.
  induction a as [| c a IH]; simpl.
  - now rewrite Ascii.eqb_refl.
  - destruct (Ascii.eqb c sep); [now rewrite IH |].
    rewrite IH. pose proof (split_on_nonempty sep a) as Hne.
    destruct (split_on sep a) as [| s0 ss]; [contradiction | reflexivity].
Qed.

(** [path.join] puts the components of its second argument after those of
    its first. *)
Lemma segments_path_join (a b : string) :
  segments (path_join a b) = (segments a ++ segments b)%list.
Proof.
  unfold path_join. destruct (String.eqb_spec a EmptyString) as [-> | Hne].
  - reflexivity.
  - unfold segments. change ("/" ++ b) with (String "/" b).
    now rewrite split_on_append, filter_app.
Qed.

Lemma reaches_child (mk : bool) (c : string) (p : list string) :
  forall (n : node) (es : list (string * node)),
    resolve p n = Ok (Dir es) ->
    reaches mk (p ++ [c]) (Some n) = true.
Proof.
  induction p as [| d p IH]; intros n es H.
  - simpl in H. inversion H. reflexivity.
  - destruct n as [sz | es0 | | ]; try discriminate.
    simpl in H. simpl. destruct (alookup d es0) as [child |]; [| discriminate].
    apply (IH child es H).
Qed.

(** X14. The first start.  When the working directory exists and holds no
    [backup.yaml], the program prints its notice, writes the placeholder
    file and exits with status 1; nothing else on disk changes; and at the
    next start the file is found, nothing is printed or written, and the
    program goes on to the backup. *)
Theorem first_start_writes_placeholder_once :
  forall (cwd : string) (root : node) (es : list (string * node)),
    resolve (segments cwd) root = Ok (Dir es) ->
    existsSync (config_file cwd) root = false ->
    exists root',
      bootstrap cwd root = (root', true, Ok (Exit 1)) /\
      lookup (segments (config_file cwd)) root'
        = Some (File (N.of_nat (String.length yamlContents))) /\
      (forall q, disjoint (segments (config_file cwd)) q = true ->
                 lookup q root' = lookup q root) /\
      bootstrap cwd root' = (root', false, Ok Proceed).
Proof.
  intros cwd root es Hcwd Hno.
  assert (L : write_file_at (N.of_nat (String.length yamlContents))
                (lookup (segments (config_file cwd)) root)
              = (Some (File (N.of_nat (String.length yamlContents))), Ok tt)).
  { unfold existsSync in Hno. unfold lookup.
    destruct (resolve (segments (config_file cwd)) root) as [[sz | es' | | ] | e];
      try discriminate; reflexivity. }
  assert (R : reaches false (segments (config_file cwd)) (Some root) = true).
  { unfold config_file. rewrite segments_path_join.
    change (segments "backup.yaml") with ["backup.yaml"].
    apply (reaches_child false _ _ root es Hcwd). }
  destruct (write_at_reaches false
              (write_file_at (N.of_nat (String.length yamlContents)))
              (segments (config_file cwd)) root R) as [Hs Hl].
  { intros _. destruct root; discriminate. }
  rewrite L in Hs, Hl. cbn [fst snd] in Hs, Hl.
  pose proof (fun q => write_at_frame false
                         (write_file_at (N.of_nat (String.length yamlContents)))
                         (segments (config_file cwd)) q root) as Hf.
  unfold bootstrap at 1. rewrite Hno. unfold writeFileSync.
  destruct (write_at false (segments (config_file cwd))
              (write_file_at (N.of_nat (String.length yamlContents))) root)
    as [root' st].
  cbn [fst snd] in *. subst st.
  exists root'. split; [reflexivity |]. split; [exact Hl |]. split; [exact Hf |].
  unfold bootstrap, existsSync. apply lookup_resolve in Hl. now rewrite Hl.
Qed.

Lemma first_start_writes_placeholder_once_witness :
  exists root',
    bootstrap "/srv" sample_root = (root', true, Ok (Exit 1)) /\
    lookup ["srv"; "backup.yaml"] root'
      = Some (File (N.of_nat (String.length yamlContents))) /\
    lookup ["srv"; "world"] root' = Some sample_world /\
    bootstrap "/srv" root' = (root', false, Ok Proceed).
Proof.
  destruct (first_start_writes_placeholder_once "/srv" sample_root
              [("world", sample_world)] eq_refl eq_refl)
    as (root' & H1 & H2 & H3 & H4).
  exists root'. split; [exact H1 |]. split; [exact H2 |]. split; [| exact H4].
  rewrite (H3 ["srv"; "world"] eq_refl). reflexivity.
Defined.
